(** * pdf_noteshrink: the colour-quantisation core, embedded and verified

    A shallow embedding of [pdf_noteshrink.py]: bit-depth reduction, RGB
    packing, background detection, foreground classification, palette
    construction, palette application and palette post-processing.

    Conventions of the embedding.
    - A numpy array of pixels is the list of its rows in C order, each row an
      RGB triple of integers, together with the shape of its leading axes
      where the shape matters.  Where the code tests the dtype of an array,
      in [quantize], the array carries its dtype.  Pixel data handed to the
      other functions is given by its values: it is the [uint8] array of
      these values when all of them lie in [0, 255], as the arrays read from
      a page image are.
    - [float32] arithmetic is IEEE 754 binary32, taken from the Standard
      Library's [SpecFloat] at precision 24 and maximal exponent 128.
    - A Python exception is the name of its class.
    - [scipy.cluster.vq.kmeans] and [np.random.shuffle] are external and
      randomised: a program that calls them is a tree whose nodes are the
      calls and whose branches are indexed by what the call returns.
    - Arrays that are mutated in place live in a heap of arrays addressed by
      references, so that aliasing is visible. *)

From Stdlib Require Import ZArith Lia String SpecFloat.
From stdpp Require Import base list strings.
Local Open Scope Z_scope.

(** ** Data model *)

(** One pixel of an image or one row of a palette. *)
Definition rgb : Type := Z * Z * Z.

Definition map_rgb {A B : Type} (f : A -> B) (c : A * A * A) : B * B * B :=
  let '(r, g, b) := c in (f r, f g, f b).

Definition is_uint8 (x : Z) : bool := (0 <=? x) && (x <=? 255).

Definition is_uint8_rgb (c : rgb) : bool :=
  let '(r, g, b) := c in is_uint8 r && is_uint8 g && is_uint8 b.

Definition uint8 (x : Z) : Prop := 0 <= x <= 255.

Definition uint8_rgb (c : rgb) : Prop :=
  let '(r, g, b) := c in uint8 r /\ uint8 g /\ uint8 b.

(** A numpy array seen through its last axis: [shape] is the shape of the
    leading axes, [flat] the elements in C order. *)
Record ndarray (A : Type) : Type := NdArray { shape : list nat; flat : list A }.
Arguments NdArray {A} _ _.
Arguments shape {A} _.
Arguments flat {A} _.

(** Outcome of a call: a value, or the class name of the exception raised. *)
Inductive result (A : Type) : Type :=
| Ok (a : A)
| Err (e : string).
Arguments Ok {A} _.
Arguments Err {A} _.

Definition bind_result {A B : Type} (r : result A) (f : A -> result B) : result B :=
  match r with
  | Ok a => f a
  | Err e => Err e
  end.

(** ** quantize *)

(** The dtypes the code tells apart: [np.uint8], which [quantize] asserts,
    and the Python-int dtype that [astype(int)] gives. *)
Inductive dtype : Type :=
| np_uint8
| np_int.

(** An array of pixels together with its dtype. *)
Record typed_array : Type := TypedArray { array_dtype : dtype; array_rows : list rgb }.

(** [a.astype(dtype)]: a cast to [uint8] keeps the low 8 bits of every
    entry, a cast to Python-int dtype keeps the entries. *)
Definition astype (dt : dtype) (a : typed_array) : typed_array :=
  match dt with
  | np_uint8 => TypedArray np_uint8 (map (map_rgb (fun x => x mod 256)) (array_rows a))
  | np_int => TypedArray np_int (array_rows a)
  end.

(** Pixel data given by its values: the [uint8] array of these values when
    every one of them is an 8-bit value; values that no [uint8] array can
    hold make it an array of Python-int dtype. *)
Definition image_of (rows : list rgb) : typed_array :=
  TypedArray (if forallb is_uint8_rgb rows then np_uint8 else np_int) rows.

(** The arithmetic of [quantize] on one channel value,
    [((x >> shift) << shift) + halfbin] with [shift = 8 - bits_per_channel]
    and [halfbin = (1 << shift) >> 1].  The code reaches it with
    [shift >= 0] only: for a negative [shift] Python's [1 << shift] has
    raised before, see [quantize]. *)
Definition quantize_value (x bits_per_channel : Z) : Z :=
  let shift := 8 - bits_per_channel in
  let halfbin := Z.shiftr (Z.shiftl 1 shift) 1 in
  Z.shiftl (Z.shiftr x shift) shift + halfbin.

(** [quantize(image, bits_per_channel=None)].  The assertion on the dtype
    comes first; then [1 << shift] raises [ValueError] (negative shift count)
    when [bits_per_channel] exceeds 8; the result of
    [image.astype(int) >> shift << shift + halfbin] has Python-int dtype. *)
Definition quantize (image : typed_array) (bits_per_channel : option Z) : result typed_array :=
  let bits_per_channel := default 6 bits_per_channel in
  match array_dtype image with
  | np_int => Err "AssertionError"
  | np_uint8 =>
      let shift := 8 - bits_per_channel in
      if shift <? 0 then Err "ValueError"
      else Ok (TypedArray np_int
                 (map (map_rgb (fun x => quantize_value x bits_per_channel))
                    (array_rows (astype np_int image))))
  end.

(** ** pack_rgb, unpack_rgb *)

(** [r << 16 | g << 8 | b] *)
Definition pack_value (c : rgb) : Z :=
  let '(r, g, b) := c in
  Z.lor (Z.lor (Z.shiftl r 16) (Z.shiftl g 8)) b.

(** [((p >> 16) & 0xff, (p >> 8) & 0xff, p & 0xff)] *)
Definition unpack_value (p : Z) : rgb :=
  (Z.land (Z.shiftr p 16) 255, Z.land (Z.shiftr p 8) 255, Z.land p 255).

(** The argument of [pack_rgb]: an array whose last axis has length 3, or any
    other sequence of length 3. *)
Inductive rgb_arg : Type :=
| RgbArray (a : ndarray rgb)
| RgbSeq (c : rgb).

(** [pack_rgb]: an array keeps the shape of its leading axes; a plain triple
    becomes a one-element vector. *)
Definition pack_rgb (arg : rgb_arg) : ndarray Z :=
  match arg with
  | RgbArray a => NdArray (shape a) (map pack_value (flat a))
  | RgbSeq c => NdArray [1%nat] [pack_value c]
  end.

(** The argument of [unpack_rgb]: an array of integers or a single integer. *)
Inductive packed_arg : Type :=
| PackedArray (a : ndarray Z)
| PackedInt (p : Z).

(** What [unpack_rgb] returns: an array with a new last axis of length 3, or
    a tuple. *)
Inductive unpacked : Type :=
| UnpackedArray (a : ndarray rgb)
| UnpackedTuple (c : rgb).

Definition unpack_rgb (arg : packed_arg) : unpacked :=
  match arg with
  | PackedArray a => UnpackedArray (NdArray (shape a) (map unpack_value (flat a)))
  | PackedInt p => UnpackedTuple (unpack_value p)
  end.

(** ** numpy helpers used by the detection of the background *)

(** One step of the histogram behind [np.unique(..., return_counts=True)]:
    the keys are kept strictly increasing, each with its number of
    occurrences. *)
Fixpoint count_insert (k : Z) (h : list (Z * Z)) : list (Z * Z) :=
  match h with
  | [] => [(k, 1)]
  | (u, c) :: t =>
      if k <? u then (k, 1) :: h
      else if k =? u then (u, c + 1) :: t
      else (u, c) :: count_insert k t
  end.

Definition histogram (a : list Z) : list (Z * Z) := foldr count_insert [] a.

(** [np.unique(a, return_counts=True)]: the sorted distinct values and how
    often each occurs. *)
Definition np_unique (a : list Z) : list Z * list Z :=
  let h := histogram a in (map fst h, map snd h).

(** Index of the first entry that is [better] than all entries before it and
    not beaten by any entry after it. *)
Fixpoint arg_best_from (better : Z -> Z -> bool) (best_i : nat) (best : Z)
    (i : nat) (l : list Z) : nat :=
  match l with
  | [] => best_i
  | x :: t =>
      if better x best then arg_best_from better i x (S i) t
      else arg_best_from better best_i best (S i) t
  end.

Definition arg_best (better : Z -> Z -> bool) (l : list Z) : option nat :=
  match l with
  | [] => None
  | x :: t => Some (arg_best_from better 0%nat x 1%nat t)
  end.

(** [a.argmax()]: the first index of the maximum; none on an empty array,
    where numpy raises [ValueError]. *)
Definition argmax (l : list Z) : option nat := arg_best (fun x best => best <? x) l.

(** The first index of the minimum. *)
Definition argmin (l : list Z) : option nat := arg_best (fun x best => x <? best) l.

(** ** get_bg_color *)

(** [get_bg_color(image, bits_per_channel=None)].  The image is given by its
    values, see [image_of]; its pixels are triples, so the assertion on the
    last axis holds.  [counts.argmax()] raises [ValueError] on an empty
    histogram. *)
Definition get_bg_color (image : list rgb) (bits_per_channel : option Z) : result rgb :=
  bind_result (quantize (image_of image) bits_per_channel) (fun quantized =>
  let quantized := array_rows (astype np_int quantized) in
  let packed := pack_rgb (RgbArray (NdArray [length quantized] quantized)) in
  let '(unique, counts) := np_unique (flat packed) in
  match argmax counts with
  | None => Err "ValueError"
  | Some i =>
      match unique !! i with
      | None => Err "IndexError"
      | Some packed_mode =>
          match unpack_rgb (PackedInt packed_mode) with
          | UnpackedTuple c => Ok c
          | UnpackedArray _ => Err "TypeError"
          end
      end
  end).

(** ** rgb_to_sv *)

(** IEEE 754 binary32, the arithmetic of numpy's [float32]. *)
Definition f32 : Type := spec_float.
Definition f32_of_Z (n : Z) : f32 := binary_normalize 24 128 n 0 false.
Definition f32_zero : f32 := S754_zero false.
Definition f32_sub : f32 -> f32 -> f32 := SFsub 24 128.
Definition f32_mul : f32 -> f32 -> f32 := SFmul 24 128.
Definition f32_div : f32 -> f32 -> f32 := SFdiv 24 128.
Definition f32_abs : f32 -> f32 := SFabs.
Definition f32_eqb : f32 -> f32 -> bool := SFeqb.
Definition f32_ltb : f32 -> f32 -> bool := SFltb.
(** [x >= y] *)
Definition f32_geb (x y : f32) : bool := SFleb y x.

(** [rgb_to_sv] on one triple: the reductions run over the channel axis, the
    quotient [delta / cmax] is replaced by 0 where [cmax == 0]. *)
Definition rgb_to_sv (c : rgb) : f32 * f32 :=
  let '(r, g, b) := c in
  let cmax := f32_of_Z (Z.max (Z.max r g) b) in
  let cmin := f32_of_Z (Z.min (Z.min r g) b) in
  let delta := f32_sub cmax cmin in
  let saturation := f32_div delta cmax in
  let saturation := if f32_eqb cmax f32_zero then f32_zero else saturation in
  let value := f32_div cmax (f32_of_Z 255) in
  (saturation, value).

(** ** get_fg_mask *)

(** The test of [get_fg_mask] for one sample, given the saturation and value
    of the background. *)
Definition is_foreground (sv_bg : f32 * f32) (value_threshold sat_threshold : f32)
    (sample : rgb) : bool :=
  let '(s_bg, v_bg) := sv_bg in
  let '(s_samples, v_samples) := rgb_to_sv sample in
  let s_diff := f32_abs (f32_sub s_bg s_samples) in
  let v_diff := f32_abs (f32_sub v_bg v_samples) in
  f32_geb v_diff value_threshold || f32_geb s_diff sat_threshold.

(** [get_fg_mask]: the thresholds are taken at the precision of the
    comparison, which numpy carries out in [float32]. *)
Definition get_fg_mask (bg_color : rgb) (samples : list rgb)
    (value_threshold sat_threshold : f32) : list bool :=
  map (is_foreground (rgb_to_sv bg_color) value_threshold sat_threshold) samples.

(** ** apply_palette *)

Definition sq_dist (a b : rgb) : Z :=
  let '(r1, g1, b1) := a in
  let '(r2, g2, b2) := b in
  (r2 - r1) * (r2 - r1) + (g2 - g1) * (g2 - g1) + (b2 - b1) * (b2 - b1).

(** [scipy.cluster.vq.vq(obs, code_book)[0]]: for each observation the index
    of the first code at the least Euclidean distance.  scipy computes the
    distances in double precision; on 8-bit data the squared distances are
    integers far below [2^53], and the least distance is where the least
    squared distance is, so the codes are those computed here on the
    integers. *)
Definition vq (obs code_book : list rgb) : result (list Z) :=
  match code_book with
  | [] => Err "ValueError"
  | _ =>
      Ok (map (fun o =>
                 Z.of_nat (default 0%nat (argmin (map (sq_dist o) code_book)))) obs)
  end.

(** [a[mask]] for a boolean mask. *)
Fixpoint mask_select {A : Type} (a : list A) (mask : list bool) : list A :=
  match a, mask with
  | x :: a', true :: mask' => x :: mask_select a' mask'
  | _ :: a', false :: mask' => mask_select a' mask'
  | _, _ => []
  end.

(** Storing an integer into a [uint8] array wraps modulo 256. *)
Definition astype_uint8 (v : Z) : Z := v mod 256.

(** [labels[mask] = values] on a [uint8] array [labels]: the values are
    consumed in order by the selected positions. *)
Fixpoint mask_assign (labels : list Z) (mask : list bool) (values : list Z) : list Z :=
  match labels, mask with
  | l :: labels', true :: mask' =>
      match values with
      | v :: values' => astype_uint8 v :: mask_assign labels' mask' values'
      | [] => l :: mask_assign labels' mask' []
      end
  | l :: labels', false :: mask' => l :: mask_assign labels' mask' values
  | _, _ => labels
  end.

Definition apply_palette (img : ndarray rgb) (palette : list rgb)
    (value_threshold sat_threshold : f32) : result (ndarray Z) :=
  match palette !! 0%nat with
  | None => Err "IndexError"
  | Some bg_color =>
      let fg_mask := get_fg_mask bg_color (flat img) value_threshold sat_threshold in
      let orig_shape := shape img in
      let pixels := flat img in
      let fg_mask_flat := fg_mask in
      let num_pixels := length pixels in
      let labels := replicate num_pixels 0 in
      bind_result (vq (mask_select pixels fg_mask_flat) palette) (fun codes =>
      Ok (NdArray orig_shape (mask_assign labels fg_mask_flat codes)))
  end.

(** ** Counting, for the statements about the histogram *)

(** Number of entries of [a] equal to [k]. *)
Fixpoint occurrences (k : Z) (a : list Z) : Z :=
  match a with
  | [] => 0
  | x :: t => (if x =? k then 1 else 0) + occurrences k t
  end.

(** Number of pixels of [image] equal to [c]. *)
Definition count_color (c : rgb) (image : list rgb) : Z :=
  Z.of_nat (length (filter (fun p => p = c) image)).

(** The count recorded for key [k] in a histogram, 0 when [k] is absent. *)
Fixpoint hist_get (k : Z) (h : list (Z * Z)) : Z :=
  match h with
  | [] => 0
  | (u, c) :: t => if k =? u then c else hist_get k t
  end.

(** The keys of [h] are strictly increasing and all above [lo]. *)
Fixpoint keys_above (lo : Z) (h : list (Z * Z)) : Prop :=
  match h with
  | [] => True
  | (u, _) :: t => lo < u /\ keys_above u t
  end.

(** ** Programs that call the external, randomised routines *)

(** A row of a [float32] array with three columns. *)
Definition frgb : Type := f32 * f32 * f32.

(** A program is a tree: it returns, raises, or calls
    [np.random.shuffle] on [np.arange(n)] and continues with the shuffled
    indices, or calls [scipy.cluster.vq.kmeans(obs, k_or_guess, iter)] and
    continues with the codebook returned. *)
Inductive prog (A : Type) : Type :=
| Ret (a : A)
| Raise (e : string)
| Shuffle (n : nat) (k : list nat -> prog A)
| Kmeans (obs : list frgb) (k_or_guess iter : Z) (k : list frgb -> prog A).
Arguments Ret {A} _.
Arguments Raise {A} _.
Arguments Shuffle {A} _ _.
Arguments Kmeans {A} _ _ _ _.

Fixpoint prog_bind {A B : Type} (p : prog A) (f : A -> prog B) : prog B :=
  match p with
  | Ret a => f a
  | Raise e => Raise e
  | Shuffle n k => Shuffle n (fun idx => prog_bind (k idx) f)
  | Kmeans obs kk it k => Kmeans obs kk it (fun centers => prog_bind (k centers) f)
  end.

Definition lift_result {A : Type} (r : result A) : prog A :=
  match r with
  | Ok a => Ret a
  | Err e => Raise e
  end.

(** A behaviour of the external routines, with a state of its own (the
    random generator).  An exception raised by [kmeans] is not caught
    anywhere in the source: it ends the program. *)
Record externals (S : Type) : Type := Externals {
  ext_shuffle : nat -> S -> list nat * S;
  ext_kmeans : list frgb -> Z -> Z -> S -> result (list frgb) * S
}.
Arguments Externals {S} _ _.
Arguments ext_shuffle {S} _ _ _.
Arguments ext_kmeans {S} _ _ _ _ _.

Fixpoint run {S A : Type} (ext : externals S) (p : prog A) (s : S) : result A * S :=
  match p with
  | Ret a => (Ok a, s)
  | Raise e => (Err e, s)
  | Shuffle n k => let '(idx, s') := ext_shuffle ext n s in run ext (k idx) s'
  | Kmeans obs kk it k =>
      match ext_kmeans ext obs kk it s with
      | (Ok centers, s') => run ext (k centers) s'
      | (Err e, s') => (Err e, s')
      end
  end.

(** The cluster count that a program asks of [kmeans], when its first step is
    that call. *)
Definition requested_clusters {A : Type} (p : prog A) : option Z :=
  match p with
  | Kmeans _ k_or_guess _ _ => Some k_or_guess
  | _ => None
  end.

(** ** sample_pixels *)

(** Python floats are IEEE 754 binary64. *)
Definition f64_of_Z (n : Z) : spec_float := binary_normalize 53 1024 n 0 false.
Definition f64_mul : spec_float -> spec_float -> spec_float := SFmul 53 1024.

(** [int(x)] on a float: truncation towards zero. *)
Definition float_to_int (x : spec_float) : result Z :=
  match x with
  | S754_zero _ => Ok 0
  | S754_finite s m e => Ok (cond_Zopp s (Z.shiftl (Z.pos m) e))
  | S754_infinity _ => Err "OverflowError"
  | S754_nan => Err "ValueError"
  end.

(** [l[:n]] *)
Definition slice_to {A : Type} (l : list A) (n : Z) : list A :=
  if 0 <=? n then take (Z.to_nat n) l
  else take (length l - Z.to_nat (- n)) l.

(** [int(num_pixels * sample_fraction)] *)
Definition num_samples_of (num_pixels : nat) (sample_fraction : spec_float) : result Z :=
  float_to_int (f64_mul (f64_of_Z (Z.of_nat num_pixels)) sample_fraction).

(** [pixels[idx]] for an array of indices. *)
Definition take_rows {A : Type} (pixels : list A) (idx : list nat) : result (list A) :=
  match mapM (fun i => pixels !! i) idx with
  | Some rows => Ok rows
  | None => Err "IndexError"
  end.

Definition sample_pixels (img : ndarray rgb) (sample_fraction : spec_float) : prog (list rgb) :=
  let pixels := flat img in
  let num_pixels := length pixels in
  prog_bind (lift_result (num_samples_of num_pixels sample_fraction)) (fun num_samples =>
  Shuffle num_pixels (fun idx =>
  lift_result (take_rows pixels (slice_to idx num_samples)))).

(** ** get_palette *)

(** [a.sum()] of a boolean array. *)
Definition mask_sum (mask : list bool) : Z := foldr (fun b acc => Z.b2z b + acc) 0 mask.

(** [astype(np.uint8)] of a float: truncation, then the low eight bits.  The
    centroids of 8-bit samples lie in [0, 255], where this is the
    truncation. *)
Definition f32_to_uint8 (x : f32) : Z :=
  match float_to_int x with
  | Ok z => z mod 256
  | Err _ => 0
  end.

(** [get_palette].  In the last line the background colour, three 8-bit
    integers, passes through the float array unchanged. *)
Definition get_palette (samples : list rgb) (num_colors : Z)
    (value_threshold sat_threshold : f32) (kmeans_iter : option Z) : prog (list rgb) :=
  let kmeans_iter := default 40 kmeans_iter in
  prog_bind (lift_result (get_bg_color samples (Some 6))) (fun bg_color =>
  let fg_mask := get_fg_mask bg_color samples value_threshold sat_threshold in
  if mask_sum fg_mask =? 0 then
    if num_colors <? 0 then Raise "ValueError"
    else
      let palette := replicate (Z.to_nat num_colors) (128, 128, 128) in
      match palette with
      | [] => Raise "IndexError"
      | _ => Ret (<[0%nat := bg_color]> palette)
      end
  else
    Kmeans (map (map_rgb f32_of_Z) (mask_select samples fg_mask))
      (num_colors - 1) kmeans_iter (fun centers =>
    Ret (bg_color :: map (map_rgb f32_to_uint8) centers))).

(** The number of distinct colours among the samples classified as
    foreground against the detected background. *)
Definition distinct_foreground (samples : list rgb)
    (value_threshold sat_threshold : f32) : result Z :=
  bind_result (get_bg_color samples (Some 6)) (fun bg_color =>
  let fg_mask := get_fg_mask bg_color samples value_threshold sat_threshold in
  Ok (Z.of_nat (length (remove_dups (mask_select samples fg_mask))))).

(** ** The heap of arrays *)

(** An array with three columns, of dtype [uint8] or [float32]. *)
Inductive array : Type :=
| U8 (rows : list rgb)
| F32 (rows : list frgb).

(** A reference to an array: what a Python variable holds. *)
Abbreviation ref := nat (only parsing).

(** What is handed to the PNG encoder: the file (by page index), the label
    map, the flattened palette and the resolution. *)
Record png : Type := Png {
  png_file : nat;
  png_labels : ndarray Z;
  png_palette : array;
  png_dpi : Z * Z
}.

Record world : Type := World { heap : list array; written : list png }.

(** Code that reads and writes the heap and may raise. *)
Definition M (A : Type) : Type := world -> result A * world.

Definition M_ret {A : Type} (a : A) : M A := fun w => (Ok a, w).

Definition M_raise {A : Type} (e : string) : M A := fun w => (Err e, w).

Definition M_bind {A B : Type} (m : M A) (f : A -> M B) : M B :=
  fun w =>
    match m w with
    | (Ok a, w') => f a w'
    | (Err e, w') => (Err e, w')
    end.

Notation "x <- m ;; k" := (M_bind m (fun x => k))
  (at level 100, m at next level, right associativity).

(** A new array: its reference is new as well. *)
Definition alloc (a : array) : M ref :=
  fun w => (Ok (length (heap w)), World (heap w ++ [a]) (written w)).

Definition load (r : ref) : M array :=
  fun w =>
    match heap w !! r with
    | Some a => (Ok a, w)
    | None => (Err "UnboundLocalError", w)
    end.

Definition to_f32 (a : array) : list frgb :=
  match a with
  | U8 rows => map (map_rgb f32_of_Z) rows
  | F32 rows => rows
  end.

Definition to_u8 (a : array) : list rgb :=
  match a with
  | U8 rows => rows
  | F32 rows => map (map_rgb f32_to_uint8) rows
  end.

(** [a.astype(np.float32)]: always a new array. *)
Definition astype_float32 (r : ref) : M ref :=
  a <- load r ;; alloc (F32 (to_f32 a)).

(** [a.astype(np.uint8)]: always a new array. *)
Definition astype_uint8_array (r : ref) : M ref :=
  a <- load r ;; alloc (U8 (to_u8 a)).

(** [a.copy()] *)
Definition np_copy (r : ref) : M ref :=
  a <- load r ;; alloc a.

Definition entries (rows : list frgb) : list f32 :=
  flat_map (fun c : frgb => let '(x, y, z) := c in [x; y; z]) rows.

Definition f32_min (x y : f32) : f32 := if f32_ltb y x then y else x.
Definition f32_max (x y : f32) : f32 := if f32_ltb x y then y else x.

(** [a.min()] and [a.max()] over all entries of a float array; numpy raises
    [ValueError] on an empty array. *)
Definition np_min (r : ref) : M f32 :=
  a <- load r ;;
  match entries (to_f32 a) with
  | [] => M_raise "ValueError"
  | x :: t => M_ret (foldl f32_min x t)
  end.

Definition np_max (r : ref) : M f32 :=
  a <- load r ;;
  match entries (to_f32 a) with
  | [] => M_raise "ValueError"
  | x :: t => M_ret (foldl f32_max x t)
  end.

(** Arithmetic of a float array with a scalar: each gives a new array. *)
Definition map_array (f : f32 -> f32) (r : ref) : M ref :=
  a <- load r ;; alloc (F32 (map (map_rgb f) (to_f32 a))).

(** [a[i] = row], in place. *)
Definition setitem_row (r : ref) (i : nat) (row : rgb) : M unit :=
  fun w =>
    match heap w !! r with
    | None => (Err "UnboundLocalError", w)
    | Some a =>
        let a' :=
          match a with
          | U8 rows =>
              if decide (i < length rows)%nat then Some (U8 (<[i := row]> rows)) else None
          | F32 rows =>
              if decide (i < length rows)%nat
              then Some (F32 (<[i := map_rgb f32_of_Z row]> rows)) else None
          end in
        match a' with
        | Some a' => (Ok tt, World (<[r := a']> (heap w)) (written w))
        | None => (Err "IndexError", w)
        end
    end.

(** [Image.fromarray(labels, 'P')], [putpalette(palette.flatten())] and
    [save]: the encoder receives a flattened copy of the palette. *)
Definition write_png (file : nat) (labels : ndarray Z) (palette : ref) (dpi : Z * Z) : M unit :=
  a <- load palette ;;
  fun w => (Ok tt, World (heap w) (written w ++ [Png file labels a dpi])).

(** The heap [w'] holds every array of [w], unchanged, at the same
    reference; it may hold more. *)
Definition extends (w w' : world) : Prop := exists more, heap w' = heap w ++ more.

(** Code that leaves every array it finds as it is. *)
Definition frames {A : Type} (m : M A) : Prop := forall w, extends w (m w).2.

(** ** save_png *)

(** The body of [if saturate:]. *)
Definition saturate_block (palette : ref) : M ref :=
  palette <- astype_float32 palette ;;
  pmin <- np_min palette ;;
  pmax <- np_max palette ;;
  palette <- (if f32_ltb pmin pmax then
                t <- map_array (fun x => f32_sub x pmin) palette ;;
                t <- map_array (fun x => f32_mul (f32_of_Z 255) x) t ;;
                map_array (fun x => f32_div x (f32_sub pmax pmin)) t
              else M_ret palette) ;;
  astype_uint8_array palette.

(** The body of [if white_bg:]. *)
Definition white_bg_block (palette : ref) : M ref :=
  palette <- np_copy palette ;;
  _ <- setitem_row palette 0 (255, 255, 255) ;;
  M_ret palette.

Definition save_png (output_filename : nat) (labels : ndarray Z) (palette : ref)
    (dpi : Z * Z) (saturate white_bg : bool) : M unit :=
  palette <- (if saturate then saturate_block palette else M_ret palette) ;;
  palette <- (if white_bg then white_bg_block palette else M_ret palette) ;;
  write_png output_filename labels palette dpi.

(** The palette post-processing as the specification words it: saturate
    first, a linear rescale of every entry that sends the least entry to 0
    and the greatest to 255, skipped when they are equal; then, if asked,
    entry 0 is made white. *)
Definition channels (palette : list rgb) : list Z :=
  flat_map (fun c : rgb => let '(x, y, z) := c in [x; y; z]) palette.

Definition spec_saturate (palette : list rgb) : list rgb :=
  match channels palette with
  | [] => palette
  | x :: t =>
      let pmin := foldl Z.min x t in
      let pmax := foldl Z.max x t in
      if pmin <? pmax
      then map (map_rgb (fun x => 255 * (x - pmin) / (pmax - pmin))) palette
      else palette
  end.

Definition spec_postprocess (saturate white_bg : bool) (palette : list rgb) : list rgb :=
  let palette := if saturate then spec_saturate palette else palette in
  if white_bg then <[0%nat := (255, 255, 255)]> palette else palette.

(** ** process_images_with_noteshrink *)

(** Code that uses the heap and calls the external routines. *)
Definition io (A : Type) : Type := world -> prog (A * world).

Definition io_ret {A : Type} (a : A) : io A := fun w => Ret (a, w).

Definition io_bind {A B : Type} (m : io A) (f : A -> io B) : io B :=
  fun w => prog_bind (m w) (fun aw => f aw.1 aw.2).

Notation "x <~ m ;; k" := (io_bind m (fun x => k))
  (at level 100, m at next level, right associativity).

Definition of_prog {A : Type} (p : prog A) : io A :=
  fun w => prog_bind p (fun a => Ret (a, w)).

Definition of_M {A : Type} (m : M A) : io A :=
  fun w =>
    match m w with
    | (Ok a, w') => Ret (a, w')
    | (Err e, _) => Raise e
    end.

Definition of_result {A : Type} (r : result A) : io A := of_prog (lift_result r).

(** An input file once opened: the RGB pixels and the resolution recorded in
    the file, if any. *)
Record page : Type := Page { page_pixels : ndarray rgb; page_dpi : option (Z * Z) }.

Record options : Type := Options {
  num_colors : Z;
  value_threshold : f32;
  sat_threshold : f32;
  saturate : bool;
  global_palette : bool;
  white_bg : bool;
  sample_fraction : spec_float
}.

(** The samples of every page, in order. *)
Fixpoint sample_all (image_files : list page) (opts : options) : prog (list (list rgb)) :=
  match image_files with
  | [] => Ret []
  | img_file :: rest =>
      prog_bind (sample_pixels (page_pixels img_file) (sample_fraction opts)) (fun samples =>
      prog_bind (sample_all rest opts) (fun all_samples =>
      Ret (samples :: all_samples)))
  end.

(** [np.vstack] of a list of arrays; numpy raises [ValueError] on an empty
    list. *)
Definition np_vstack (arrays : list (list rgb)) : result (list rgb) :=
  match arrays with
  | [] => Err "ValueError"
  | _ => Ok (concat arrays)
  end.

(** The loop over the pages, from page [idx] on. *)
Fixpoint process_pages (global : option ref) (opts : options) (idx : nat)
    (image_files : list page) : io (list nat) :=
  match image_files with
  | [] => io_ret []
  | img_file :: rest =>
      let img := page_pixels img_file in
      let dpi := default (150, 150) (page_dpi img_file) in
      palette <~ match global with
                 | Some p => io_ret p
                 | None =>
                     samples <~ of_prog (sample_pixels img (sample_fraction opts)) ;;
                     palette <~ of_prog (get_palette samples (num_colors opts)
                                           (value_threshold opts) (sat_threshold opts) None) ;;
                     of_M (alloc (U8 palette))
                 end ;;
      colors <~ of_M (load palette) ;;
      labels <~ of_result (apply_palette img (to_u8 colors)
                             (value_threshold opts) (sat_threshold opts)) ;;
      _ <~ of_M (save_png idx labels palette dpi (saturate opts) (white_bg opts)) ;;
      processed_files <~ process_pages global opts (S idx) rest ;;
      io_ret (idx :: processed_files)
  end.

Definition process_images_with_noteshrink (image_files : list page) (opts : options)
    : io (list nat) :=
  global <~ (if global_palette opts then
               all_samples <~ of_prog (sample_all image_files opts) ;;
               all_samples <~ of_result (np_vstack all_samples) ;;
               palette <~ of_prog (get_palette all_samples (num_colors opts)
                                     (value_threshold opts) (sat_threshold opts) None) ;;
               p <~ of_M (alloc (U8 palette)) ;;
               io_ret (Some p)
             else io_ret None) ;;
  process_pages global opts 0 image_files.

(** A behaviour of the external routines for running examples: the shuffle
    leaves the indices in order, the clustering returns the first
    [k_or_guess] observations. *)
Definition plain_externals : externals unit :=
  Externals (fun n s => (seq 0 n, s))
            (fun obs k_or_guess iter s => (Ok (take (Z.to_nat k_or_guess) obs), s)).

(** ** Checks by enumeration over the 8-bit values *)

(** Structural equality of floating-point data. *)
Definition sf_beq (x y : spec_float) : bool :=
  match x, y with
  | S754_zero s1, S754_zero s2 => Bool.eqb s1 s2
  | S754_infinity s1, S754_infinity s2 => Bool.eqb s1 s2
  | S754_nan, S754_nan => true
  | S754_finite s1 m1 e1, S754_finite s2 m2 e2 =>
      Bool.eqb s1 s2 && (m1 =? m2)%positive && (e1 =? e2)
  | _, _ => false
  end.

(** [P a b] holds for all 8-bit [a] and [b]. *)
Definition check_pairs (P : Z -> Z -> bool) : bool :=
  forallb (fun a => forallb (P a) (seqZ 0 256)) (seqZ 0 256).

(** * Further definitions, for the properties beyond the claims *)

(** The quantisation of a whole pixel at a given bit depth. *)
Definition quantize_rgb (bits : Z) (c : rgb) : rgb := map_rgb (fun x => quantize_value x bits) c.

(** The bucket of a pixel: every channel without its low [8 - bits] bits. *)
Definition bucket (bits : Z) (c : rgb) : rgb := map_rgb (fun x => Z.shiftr x (8 - bits)) c.

(** [rgb_to_sv] from the least and the greatest channel. *)
Definition sv_of_extremes (cmin cmax : Z) : f32 * f32 :=
  rgb_to_sv (cmax, cmin, cmin).

(** What is checked of the saturation and value of a pixel with least
    channel [cmin] and greatest channel [cmax]. *)
Definition sv_in_range (cmin cmax : Z) : bool :=
  let '(s, v) := sv_of_extremes cmin cmax in
  (cmax <? cmin) ||
  (f32_geb s f32_zero && f32_geb (f32_of_Z 1) s &&
   f32_geb v f32_zero && f32_geb (f32_of_Z 1) v &&
   Bool.eqb (sf_beq s f32_zero) (cmin =? cmax) &&
   Bool.eqb (sf_beq s (f32_of_Z 1)) ((cmin =? 0) && (0 <? cmax)) &&
   Bool.eqb (sf_beq v f32_zero) (cmax =? 0) &&
   Bool.eqb (sf_beq v (f32_of_Z 1)) (cmax =? 255)).

(** Code that hands nothing to the encoder. *)
Definition keeps_written {A : Type} (m : M A) : Prop :=
  forall w, written (m w).2 = written w.

(** * Properties *)

(** ** Integer shifts and masks on 8-bit fields *)

Lemma is_uint8_spec x : is_uint8 x = true <-> uint8 x.
Proof. unfold is_uint8, uint8. rewrite andb_true_iff. lia. Qed.

Lemma is_uint8_rgb_spec c : is_uint8_rgb c = true <-> uint8_rgb c.
Proof.
  destruct c as [[r g] b]. unfold is_uint8_rgb, uint8_rgb.
  rewrite !andb_true_iff, !is_uint8_spec. tauto.
Qed.

Lemma forallb_uint8_rgb (l : list rgb) :
  forallb is_uint8_rgb l = true <-> Forall uint8_rgb l.
Proof.
  induction l as [|c l IH]; simpl.
  - split; [constructor | reflexivity].
  - rewrite andb_true_iff, Forall_cons, IH, is_uint8_rgb_spec. tauto.
Qed.

Lemma shiftr_small x n : 0 <= x < 2 ^ n -> 0 <= n -> Z.shiftr x n = 0.
Proof. intros Hx Hn. rewrite Z.shiftr_div_pow2 by lia. apply Z.div_small. lia. Qed.


Lemma unpack_pack_value c : uint8_rgb c -> unpack_value (pack_value c) = c.
Proof.
  destruct c as [[r g] b]. intros (Hr & Hg & Hb).
  unfold uint8 in *. unfold unpack_value, pack_value.
  rewrite !Z.shiftr_lor.
  rewrite (Z.shiftr_shiftl_l r 16 16), (Z.shiftr_shiftl_r g 8 16) by lia.
  rewrite (Z.shiftr_shiftl_l r 16 8), (Z.shiftr_shiftl_l g 8 8) by lia.
  change (16 - 16) with 0. change (16 - 8) with 8. change (8 - 8) with 0.
  rewrite !Z.shiftl_0_r.
  rewrite (shiftr_small g 8), (shiftr_small b 16), (shiftr_small b 8) by lia.
  rewrite !Z.lor_0_r, !Z.land_lor_distr_l.
  change 255 with (Z.ones 8).
  rewrite !Z.land_ones by lia.
  rewrite !Z.shiftl_mul_pow2 by lia.
  rewrite (Z.mod_small r), (Z.mod_small g), (Z.mod_small b) by lia.
  rewrite !Z.mod_mul by lia.
  change (2 ^ 16) with (2 ^ 8 * 2 ^ 8). rewrite Z.mul_assoc, Z.mod_mul by lia.
  now rewrite !Z.lor_0_l, ?Z.lor_0_r.
Qed.

Lemma land_shiftl_low hi lo n : 0 <= n -> 0 <= lo < 2 ^ n -> Z.land (Z.shiftl hi n) lo = 0.
Proof.
  intros Hn Hlo. apply Z.bits_inj'. intros m Hm.
  rewrite Z.land_spec, Z.bits_0.
  destruct (Z.lt_ge_cases m n) as [Hlt | Hge].
  - rewrite Z.shiftl_spec_low by lia. reflexivity.
  - assert (E : Z.testbit lo m = false).
    { apply Z.testbit_false; [lia|].
      rewrite Z.div_small; [reflexivity|].
      split; [lia|]. apply Z.lt_le_trans with (2 ^ n); [lia|].
      apply Z.pow_le_mono_r; lia. }
    rewrite E. apply andb_false_r.
Qed.

Lemma lor_shiftl_add hi lo n :
  0 <= n -> 0 <= lo < 2 ^ n -> Z.lor (Z.shiftl hi n) lo = hi * 2 ^ n + lo.
Proof.
  intros Hn Hlo.
  pose proof (Z.add_lor_land (Z.shiftl hi n) lo) as H.
  rewrite land_shiftl_low in H by assumption.
  rewrite Z.shiftl_mul_pow2 in * by lia. lia.
Qed.

Lemma pack_value_sum r g b :
  uint8 g -> uint8 b -> pack_value (r, g, b) = r * 65536 + g * 256 + b.
Proof.
  unfold uint8, pack_value. intros Hg Hb.
  change 16 with (8 + 8) at 1.
  rewrite <- (Z.shiftl_shiftl r 8 8), <- Z.shiftl_lor by lia.
  rewrite (lor_shiftl_add r g 8) by lia.
  rewrite lor_shiftl_add by lia.
  change (2 ^ 8) with 256. lia.
Qed.

Lemma unpack_value_arith p :
  unpack_value p = ((p / 65536) mod 256, (p / 256) mod 256, p mod 256).
Proof.
  unfold unpack_value. change 255 with (Z.ones 8).
  rewrite !Z.land_ones, !Z.shiftr_div_pow2 by lia. reflexivity.
Qed.

Lemma unpack_value_uint8 p : uint8_rgb (unpack_value p).
Proof.
  rewrite unpack_value_arith. unfold uint8_rgb, uint8.
  pose proof (Z.mod_pos_bound (p / 65536) 256).
  pose proof (Z.mod_pos_bound (p / 256) 256).
  pose proof (Z.mod_pos_bound p 256). lia.
Qed.

Lemma pack_unpack_value p : 0 <= p < 2 ^ 24 -> pack_value (unpack_value p) = p.
Proof.
  intros Hp. pose proof (unpack_value_uint8 p) as Hu.
  rewrite unpack_value_arith in *. destruct Hu as (_ & Hg & Hb).
  rewrite pack_value_sum by assumption.
  change (2 ^ 24) with 16777216 in Hp.
  rewrite (Z.mod_small (p / 65536)).
  2:{ split; [apply Z.div_pos; lia | apply Z.div_lt_upper_bound; lia]. }
  pose proof (Z.div_mod p 256 ltac:(lia)) as E1.
  pose proof (Z.div_mod (p / 256) 256 ltac:(lia)) as E2.
  rewrite Z.div_div in E2 by lia. change (256 * 256) with 65536 in E2.
  lia.
Qed.

Lemma pack_value_range c : uint8_rgb c -> 0 <= pack_value c < 2 ^ 24.
Proof.
  destruct c as [[r g] b]. intros (Hr & Hg & Hb).
  rewrite pack_value_sum by assumption. unfold uint8 in *.
  change (2 ^ 24) with 16777216. lia.
Qed.

Lemma map_unpack_pack (l : list rgb) :
  Forall uint8_rgb l -> map unpack_value (map pack_value l) = l.
Proof.
  induction 1 as [|c l Hc _ IH]; simpl; [reflexivity|].
  now rewrite unpack_pack_value, IH.
Qed.

(** C2. Packing an 8-bit triple as [R<<16 | G<<8 | B] and unpacking it gives
    the triple back, for single triples and elementwise for arrays of any
    shape; the packing is a bijection between the 8-bit triples and the
    integers below [2^24]. *)
Theorem pack_unpack_roundtrip :
  (forall c, uint8_rgb c ->
     unpack_rgb (PackedInt (pack_value c)) = UnpackedTuple c /\
     unpack_rgb (PackedArray (pack_rgb (RgbSeq c))) = UnpackedArray (NdArray [1%nat] [c])) /\
  (forall a : ndarray rgb, Forall uint8_rgb (flat a) ->
     unpack_rgb (PackedArray (pack_rgb (RgbArray a))) = UnpackedArray a) /\
  (forall r g b, uint8 r -> uint8 g -> uint8 b ->
     pack_value (r, g, b) = Z.lor (Z.lor (Z.shiftl r 16) (Z.shiftl g 8)) b /\
     0 <= pack_value (r, g, b) < 2 ^ 24) /\
  (forall c1 c2, uint8_rgb c1 -> uint8_rgb c2 -> pack_value c1 = pack_value c2 -> c1 = c2) /\
  (forall p, 0 <= p < 2 ^ 24 ->
     uint8_rgb (unpack_value p) /\ pack_value (unpack_value p) = p).
Proof.
  split; [|split; [|split; [|split]]].
  - intros c Hc. simpl. now rewrite unpack_pack_value.
  - intros [sh l] Hl. simpl in *. now rewrite map_unpack_pack.
  - intros r g b Hr Hg Hb. split; [reflexivity|].
    apply (pack_value_range (r, g, b)). exact (conj Hr (conj Hg Hb)).
  - intros c1 c2 H1 H2 E.
    rewrite <- (unpack_pack_value c1 H1), <- (unpack_pack_value c2 H2). now rewrite E.
  - intros p Hp. split; [apply unpack_value_uint8 | now apply pack_unpack_value].
Qed.

Lemma pack_unpack_roundtrip_witness :
  unpack_rgb (PackedArray (pack_rgb (RgbArray (NdArray [1; 2]%nat [(255, 0, 7); (1, 2, 3)])))) =
  UnpackedArray (NdArray [1; 2]%nat [(255, 0, 7); (1, 2, 3)]).
Proof.
  apply (proj1 (proj2 pack_unpack_roundtrip)).
  simpl. repeat constructor; unfold uint8; lia.
Defined.

(** ** quantize is idempotent *)

Lemma halfbin_bounds s : 0 <= s -> 0 <= Z.shiftr (Z.shiftl 1 s) 1 < 2 ^ s.
Proof.
  intros Hs. rewrite Z.shiftl_1_l, Z.shiftr_div_pow2 by lia.
  change (2 ^ 1) with 2.
  assert (0 < 2 ^ s) by (apply Z.pow_pos_nonneg; lia).
  split; [apply Z.div_pos; lia | apply Z.div_lt; lia].
Qed.

Lemma quantize_value_idem x b :
  b <= 8 -> quantize_value (quantize_value x b) b = quantize_value x b.
Proof.
  intros Hb. unfold quantize_value.
  set (s := 8 - b). assert (Hs : 0 <= s) by (unfold s; lia).
  pose proof (halfbin_bounds s Hs) as Hh.
  set (h := Z.shiftr (Z.shiftl 1 s) 1) in *.
  f_equal. f_equal.
  rewrite !Z.shiftr_div_pow2, Z.shiftl_mul_pow2 by lia.
  rewrite Z.div_add_l by lia.
  rewrite (Z.div_small h) by lia. lia.
Qed.

Lemma quantize_value_uint8 x b : 0 <= b <= 8 -> uint8 x -> uint8 (quantize_value x b).
Proof.
  intros Hb Hx. unfold uint8 in *. unfold quantize_value.
  set (s := 8 - b). assert (Hs : 0 <= s <= 8) by (unfold s; lia).
  pose proof (halfbin_bounds s ltac:(lia)) as Hh.
  set (h := Z.shiftr (Z.shiftl 1 s) 1) in *.
  rewrite Z.shiftr_div_pow2, Z.shiftl_mul_pow2 by lia.
  assert (Hp : 0 < 2 ^ s) by (apply Z.pow_pos_nonneg; lia).
  assert (Hq : 0 <= x / 2 ^ s) by (apply Z.div_pos; lia).
  assert (Hsplit : 2 ^ (8 - s) * 2 ^ s = 256).
  { rewrite <- Z.pow_add_r by lia. replace (8 - s + s) with 8 by lia. reflexivity. }
  assert (Hlt : x / 2 ^ s < 2 ^ (8 - s)).
  { apply Z.div_lt_upper_bound; lia. }
  split; [nia|]. nia.
Qed.

Lemma quantize_rgb_uint8 c b :
  0 <= b <= 8 -> uint8_rgb c -> uint8_rgb (map_rgb (fun x => quantize_value x b) c).
Proof.
  destruct c as [[r g] bl]. intros Hb (Hr & Hg & Hbl).
  repeat split; now apply quantize_value_uint8.
Qed.

Lemma quantize_uint8_array rows bits :
  default 6 bits <= 8 ->
  quantize (TypedArray np_uint8 rows) bits =
  Ok (TypedArray np_int (map (map_rgb (fun x => quantize_value x (default 6 bits))) rows)).
Proof.
  intros Hb. unfold quantize. cbn [array_dtype astype array_rows].
  destruct (8 - default 6 bits <? 0) eqn:E; [lia | reflexivity].
Qed.

Lemma quantize_int_array rows bits :
  quantize (TypedArray np_int rows) bits = Err "AssertionError".
Proof. reflexivity. Qed.

Lemma image_of_uint8 image : Forall uint8_rgb image -> image_of image = TypedArray np_uint8 image.
Proof.
  intros H. unfold image_of. now rewrite (proj2 (forallb_uint8_rgb image) H).
Qed.

Lemma quantize_ok image bits :
  Forall uint8_rgb image -> default 6 bits <= 8 ->
  quantize (image_of image) bits =
  Ok (TypedArray np_int (map (map_rgb (fun x => quantize_value x (default 6 bits))) image)).
Proof.
  intros H Hb. rewrite image_of_uint8 by assumption. now apply quantize_uint8_array.
Qed.

Lemma astype_uint8_rows dt rows :
  Forall uint8_rgb rows -> astype np_uint8 (TypedArray dt rows) = TypedArray np_uint8 rows.
Proof.
  intros H. unfold astype. cbn [array_rows]. f_equal.
  induction H as [|[[r g] bl] rows (Hr & Hg & Hbl) _ IH]; [reflexivity|].
  cbn [map map_rgb]. rewrite IH. unfold uint8 in *.
  now rewrite !Z.mod_small by lia.
Qed.

(** C6 (as the code has it). For a bit depth between 1 and 8 the arithmetic
    of [quantize] maps 8-bit values to 8-bit values and has its results as
    fixed points.  [quantize] itself returns these values in an array of
    Python-int dtype: applied to its own result it raises [AssertionError],
    and applied to that result cast back to [uint8] it returns the same
    array. *)
Theorem quantize_idempotent (b : Z) :
  1 <= b <= 8 ->
  (forall x, uint8 x ->
     uint8 (quantize_value x b) /\
     quantize_value (quantize_value x b) b = quantize_value x b) /\
  (forall image, Forall uint8_rgb image ->
     exists q, quantize (TypedArray np_uint8 image) (Some b) = Ok q /\
               array_dtype q = np_int /\
               array_rows q = map (map_rgb (fun x => quantize_value x b)) image /\
               Forall uint8_rgb (array_rows q) /\
               quantize q (Some b) = Err "AssertionError" /\
               quantize (astype np_uint8 q) (Some b) = Ok q).
Proof.
  intros Hb. split.
  - intros x Hx. split; [apply quantize_value_uint8; [lia | assumption]|].
    apply quantize_value_idem. lia.
  - intros image Himg. eexists. split; [apply quantize_uint8_array; simpl; lia|].
    cbn [array_dtype array_rows default].
    assert (Hq : Forall uint8_rgb (map (map_rgb (fun x => quantize_value x b)) image)).
    { apply Forall_map. eapply Forall_impl; [exact Himg|].
      intros c Hc. apply quantize_rgb_uint8; [lia | assumption]. }
    split; [reflexivity|]. split; [reflexivity|]. split; [exact Hq|].
    split; [apply quantize_int_array|].
    rewrite astype_uint8_rows by exact Hq.
    rewrite quantize_uint8_array by (simpl; lia). cbn [default]. do 2 f_equal.
    rewrite map_map. apply map_ext. intros [[r g] bl]. simpl.
    now rewrite !quantize_value_idem by lia.
Qed.

Lemma quantize_idempotent_witness :
  1 <= 6 <= 8 /\
  quantize (TypedArray np_uint8 [(255, 130, 7)]) (Some 6)
  = Ok (TypedArray np_int [(254, 130, 6)]) /\
  quantize (TypedArray np_int [(254, 130, 6)]) (Some 6) = Err "AssertionError" /\
  quantize (TypedArray np_uint8 [(254, 130, 6)]) (Some 6)
  = Ok (TypedArray np_int [(254, 130, 6)]).
Proof.
  split; [lia|].
  destruct (quantize_idempotent 6 ltac:(lia)) as [_ H].
  destruct (H [(255, 130, 7)]) as (q & H1 & _ & _ & _ & H2 & H3).
  { repeat constructor; unfold uint8; lia. }
  assert (E : q = TypedArray np_int [(254, 130, 6)]).
  { vm_compute in H1. now inversion H1. }
  subst q. split; [exact H1|]. split; [exact H2 | exact H3].
Defined.

(** C6 as stated fails on the arrays of the code: what [quantize] returns is
    not of dtype [uint8], so the second call raises where the claim has it
    return the first result. *)
Lemma quantize_twice_raises :
  bind_result (quantize (TypedArray np_uint8 [(255, 130, 7)]) (Some 6))
    (fun q => quantize q (Some 6))
  = Err "AssertionError" /\
  bind_result (quantize (TypedArray np_uint8 [(255, 130, 7)]) (Some 6))
    (fun q => quantize q (Some 6))
  <> quantize (TypedArray np_uint8 [(255, 130, 7)]) (Some 6).
Proof. split; [reflexivity | discriminate]. Qed.

(** ** Lists: lookup under [map], first best index *)

Lemma lookup_map {A B : Type} (f : A -> B) (l : list A) (i : nat) :
  map f l !! i = f <$> (l !! i).
Proof. revert i. induction l as [|x l IH]; intros [|i]; simpl; auto. Qed.

Lemma arg_best_from_max l : forall best_i best i,
  let r := arg_best_from (fun x b => b <? x) best_i best i l in
  (r = best_i /\ Forall (fun y => y <= best) l) \/
  (exists j x, r = (i + j)%nat /\ l !! j = Some x /\ best < x /\
               Forall (fun y => y <= x) l).
Proof.
  induction l as [|x t IH]; intros best_i best i; simpl.
  - left. split; [reflexivity | constructor].
  - destruct (Z.ltb_spec best x) as [Hlt | Hge].
    + right. destruct (IH i x (S i)) as [[Hr Hall] | (j & y & Hr & Hj & Hxy & Hall)].
      * exists 0%nat, x. repeat split; [simpl in *; lia | assumption |].
        constructor; [lia | assumption].
      * exists (S j), y. repeat split; [simpl in *; lia | assumption | lia |].
        constructor; [lia | assumption].
    + destruct (IH best_i best (S i)) as [[Hr Hall] | (j & y & Hr & Hj & Hxy & Hall)].
      * left. split; [assumption|]. constructor; assumption.
      * right. exists (S j), y. repeat split; [simpl in *; lia | assumption | assumption |].
        constructor; [lia | assumption].
Qed.

Lemma argmax_spec l i :
  argmax l = Some i ->
  exists x, l !! i = Some x /\ Forall (fun y => y <= x) l.
Proof.
  destruct l as [|x t]; [discriminate|]. unfold argmax. simpl. intros [= <-].
  destruct (arg_best_from_max t 0%nat x 1%nat) as [[Hr Hall] | (j & y & Hr & Hj & Hxy & Hall)].
  - simpl in Hr. rewrite Hr. exists x. split; [reflexivity|].
    constructor; [lia | assumption].
  - simpl in Hr. rewrite Hr. exists y. split; [assumption|].
    constructor; [lia | assumption].
Qed.

Lemma argmax_is_Some l : l <> [] -> exists i, argmax l = Some i.
Proof. destruct l; [congruence|]. intros _. eexists. reflexivity. Qed.

Lemma arg_best_from_opp l : forall best_i best i,
  arg_best_from (fun x b => x <? b) best_i best i l =
  arg_best_from (fun x b => b <? x) best_i (- best) i (map Z.opp l).
Proof.
  induction l as [|x t IH]; intros; simpl; [reflexivity|].
  replace (- best <? - x) with (x <? best).
  - destruct (x <? best); apply IH.
  - destruct (Z.ltb_spec x best), (Z.ltb_spec (- best) (- x)); lia || reflexivity.
Qed.

Lemma argmin_spec l i :
  argmin l = Some i ->
  exists x, l !! i = Some x /\ Forall (fun y => x <= y) l.
Proof.
  intros H.
  assert (E : argmax (map Z.opp l) = Some i).
  { destruct l as [|x t]; [discriminate|]. unfold argmin, argmax in *. simpl in *.
    now rewrite <- arg_best_from_opp. }
  destruct (argmax_spec _ _ E) as (y & Hy & Hall).
  rewrite lookup_map in Hy. destruct (l !! i) as [x|] eqn:Hx; [|discriminate].
  injection Hy as <-. exists x. split; [reflexivity|].
  rewrite Forall_map in Hall. eapply Forall_impl; [exact Hall|].
  simpl. intros; lia.
Qed.

(** ** The histogram of [np.unique] *)

Lemma keys_above_get lo h k : keys_above lo h -> k <= lo -> hist_get k h = 0.
Proof.
  revert lo. induction h as [|[u c] t IH]; intros lo H Hk; simpl in *; [reflexivity|].
  destruct H as [Hu Ht]. destruct (Z.eqb_spec k u); [lia|].
  apply (IH u); [assumption | lia].
Qed.

Lemma keys_above_weaken lo lo' h : keys_above lo h -> lo' <= lo -> keys_above lo' h.
Proof. destruct h as [|[u c] t]; simpl; [trivial|]. intros [H1 H2] Hle. split; [lia | assumption]. Qed.

Lemma keys_above_insert lo h k :
  keys_above lo h -> lo < k -> keys_above lo (count_insert k h).
Proof.
  revert lo. induction h as [|[u c] t IH]; intros lo H Hk; simpl in *.
  - split; [assumption | exact I].
  - destruct H as [Hu Ht].
    destruct (Z.ltb_spec k u).
    + simpl. repeat split; assumption.
    + destruct (Z.eqb_spec k u); simpl.
      * split; assumption.
      * split; [assumption|]. apply IH; [assumption | lia].
Qed.

Lemma hist_get_insert lo h k k' :
  keys_above lo h ->
  hist_get k' (count_insert k h) = hist_get k' h + (if k' =? k then 1 else 0).
Proof.
  revert lo. induction h as [|[u c] t IH]; intros lo H; simpl in *.
  - destruct (k' =? k); reflexivity.
  - destruct H as [Hu Ht].
    destruct (Z.ltb_spec k u).
    + simpl. destruct (Z.eqb_spec k' k) as [E | Hne].
      * rewrite E. destruct (Z.eqb_spec k u); [lia|].
        rewrite (keys_above_get u t k) by (assumption || lia). reflexivity.
      * lia.
    + destruct (Z.eqb_spec k u) as [E | Hne]; simpl.
      * rewrite E. destruct (Z.eqb_spec k' u); lia.
      * destruct (Z.eqb_spec k' u) as [E' | Hne'].
        -- rewrite E'. destruct (Z.eqb_spec u k); lia.
        -- apply (IH u). assumption.
Qed.

Lemma histogram_keys a : exists lo, keys_above lo (histogram a).
Proof.
  induction a as [|x a [lo IH]]; simpl.
  - exists 0. exact I.
  - exists (Z.min lo (x - 1)). apply keys_above_insert; [|lia].
    eapply keys_above_weaken; [exact IH | lia].
Qed.

Lemma histogram_get k a : hist_get k (histogram a) = occurrences k a.
Proof.
  induction a as [|x a IH]; simpl; [reflexivity|].
  destruct (histogram_keys a) as [lo Hlo].
  rewrite (hist_get_insert lo) by assumption. rewrite IH.
  rewrite (Z.eqb_sym k x). lia.
Qed.

Lemma keys_above_In lo h u c : keys_above lo h -> In (u, c) h -> lo < u.
Proof.
  revert lo. induction h as [|[u' c'] t IH]; intros lo H Hin; simpl in *; [contradiction|].
  destruct H as [Hu Ht]. destruct Hin as [[= -> ->] | Hin]; [assumption|].
  specialize (IH _ Ht Hin). lia.
Qed.

Lemma hist_get_In lo h u c : keys_above lo h -> In (u, c) h -> hist_get u h = c.
Proof.
  revert lo. induction h as [|[u' c'] t IH]; intros lo H Hin; simpl in *; [contradiction|].
  destruct H as [Hu Ht]. destruct Hin as [[= -> ->] | Hin].
  - now rewrite Z.eqb_refl.
  - pose proof (keys_above_In _ _ _ _ Ht Hin).
    destruct (Z.eqb_spec u u'); [lia|]. now apply (IH u').
Qed.

Lemma hist_get_present k h : hist_get k h <> 0 -> In (k, hist_get k h) h.
Proof.
  induction h as [|[u c] t IH]; simpl; [congruence|].
  destruct (Z.eqb_spec k u) as [-> | Hne]; intros H; [now left | right; auto].
Qed.


Lemma occurrences_two k u a :
  k <> u -> occurrences k a + occurrences u a <= Z.of_nat (length a).
Proof.
  intros Hne. induction a as [|x a IH]; simpl length; simpl occurrences; [lia|].
  destruct (Z.eqb_spec x k), (Z.eqb_spec x u); lia.
Qed.

Lemma occurrences_map (f : rgb -> Z) c image :
  count_color c image <= occurrences (f c) (map f image).
Proof.
  unfold count_color. induction image as [|p image IH]; simpl; [lia|].
  rewrite filter_cons. destruct (decide (p = c)) as [-> | Hne].
  - rewrite Z.eqb_refl. simpl length. lia.
  - destruct (f p =? f c); lia.
Qed.

(** The most frequent key of a list in which one key fills more than half
    of the positions is that key. *)
Lemma majority_mode k a :
  Z.of_nat (length a) < 2 * occurrences k a ->
  exists i, argmax (np_unique a).2 = Some i /\ (np_unique a).1 !! i = Some k.
Proof.
  intros Hmaj. unfold np_unique. simpl.
  destruct (histogram_keys a) as [lo Hlo].
  assert (Hk : In (k, occurrences k a) (histogram a)).
  { rewrite <- histogram_get. apply hist_get_present. rewrite histogram_get. lia. }
  destruct (argmax_is_Some (map snd (histogram a))) as [i Hi].
  { destruct (histogram a); [contradiction | discriminate]. }
  exists i. split; [assumption|].
  destruct (argmax_spec _ _ Hi) as (c & Hc & Hall).
  rewrite lookup_map in *.
  destruct (histogram a !! i) as [[u c']|] eqn:Hui; [|discriminate].
  simpl in *. injection Hc as ->. f_equal.
  destruct (Z.eq_dec u k) as [|Hne]; [assumption | exfalso].
  assert (Hu : occurrences u a = c).
  { rewrite <- histogram_get. apply (hist_get_In lo); [assumption|].
    apply list_elem_of_In. eapply list_elem_of_lookup_2. exact Hui. }
  rewrite Forall_forall in Hall.
  assert (Hck : occurrences k a <= c).
  { apply Hall. apply list_elem_of_In. apply in_map_iff. exists (k, occurrences k a). auto. }
  pose proof (occurrences_two k u a ltac:(congruence)). lia.
Qed.

(** ** get_bg_color *)

Lemma count_color_In c image : 0 < count_color c image -> In c image.
Proof.
  unfold count_color. intros H.
  destruct (filter (fun p => p = c) image) as [|p l] eqn:E; [simpl in H; lia|].
  assert (Hp : p ∈ filter (fun p => p = c) image) by (rewrite E; left).
  apply list_elem_of_filter in Hp as [-> Hp]. now apply list_elem_of_In.
Qed.

Lemma quantize_value_6 x : quantize_value x 6 = 4 * (x / 4) + 2.
Proof.
  unfold quantize_value. change (8 - 6) with 2.
  rewrite Z.shiftr_div_pow2, Z.shiftl_mul_pow2 by lia.
  change (Z.shiftr (Z.shiftl 1 2) 1) with 2. change (2 ^ 2) with 4. lia.
Qed.


Lemma get_bg_color_mode image c :
  Forall uint8_rgb image ->
  Z.of_nat (length image) < 2 * count_color c image ->
  get_bg_color image None = Ok (map_rgb (fun x => quantize_value x 6) c).
Proof.
  intros Himg Hmaj.
  assert (Hc : uint8_rgb c).
  { rewrite Forall_forall in Himg. apply Himg. apply list_elem_of_In.
    apply count_color_In. lia. }
  unfold get_bg_color. rewrite quantize_ok by (assumption || (simpl; lia)). simpl.
  set (q := map_rgb (fun x => quantize_value x 6)).
  destruct (majority_mode (pack_value (q c)) (map pack_value (map q image))) as (i & Hi & Hu).
  { rewrite !length_map, map_map.
    pose proof (occurrences_map (fun p => pack_value (q p)) c image) as H.
    cbv beta in H. unfold rgb in *. lia. }
  unfold np_unique in *. simpl in *. rewrite Hi, Hu.
  f_equal. apply unpack_pack_value. apply quantize_rgb_uint8; [lia | assumption].
Qed.

(** C5 (as the code has it). When more than half of the pixels of an 8-bit
    image have the colour [c], [get_bg_color] at the default bit depth
    returns the midpoint of the 6-bit bucket of [c], channel by channel
    [4 * (x / 4) + 2]; that is [c] itself exactly when every channel of [c] is
    2 modulo 4. *)
Theorem get_bg_color_majority image c :
  Forall uint8_rgb image ->
  Z.of_nat (length image) < 2 * count_color c image ->
  get_bg_color image None = Ok (map_rgb (fun x => 4 * (x / 4) + 2) c) /\
  (get_bg_color image None = Ok c <->
   let '(r, g, b) := c in r mod 4 = 2 /\ g mod 4 = 2 /\ b mod 4 = 2).
Proof.
  intros Himg Hmaj. rewrite (get_bg_color_mode image c Himg Hmaj).
  destruct c as [[r g] b]. simpl. rewrite !quantize_value_6. split; [reflexivity|].
  pose proof (Z.div_mod r 4 ltac:(lia)).
  pose proof (Z.div_mod g 4 ltac:(lia)).
  pose proof (Z.div_mod b 4 ltac:(lia)).
  split.
  - intros [= E1 E2 E3]. lia.
  - intros (E1 & E2 & E3). f_equal. f_equal; [f_equal|]; lia.
Qed.

Lemma get_bg_color_majority_witness :
  get_bg_color [(255, 255, 255); (255, 255, 255); (0, 0, 0)] None = Ok (254, 254, 254).
Proof.
  apply (get_bg_color_majority [(255, 255, 255); (255, 255, 255); (0, 0, 0)] (255, 255, 255)).
  - repeat constructor; unfold uint8; lia.
  - vm_compute. reflexivity.
Defined.

(** C5 as stated fails: three quarters of this image are pure white, and the
    colour returned is (254,254,254). *)
Lemma get_bg_color_majority_not_exact :
  let image := [(255, 255, 255); (255, 255, 255); (255, 255, 255); (0, 0, 0)] in
  Forall uint8_rgb image /\
  Z.of_nat (length image) < 2 * count_color (255, 255, 255) image /\
  get_bg_color image None = Ok (254, 254, 254) /\
  get_bg_color image None <> Ok (255, 255, 255).
Proof.
  simpl. split; [repeat constructor; unfold uint8; lia|].
  split; [vm_compute; reflexivity|].
  split; [reflexivity | vm_compute; congruence].
Qed.

(** ** Floating-point facts used by the classifier *)

Lemma SFabs_binary_round prec emax m e :
  SFabs (binary_round prec emax true m e) = SFabs (binary_round prec emax false m e).
Proof.
  unfold binary_round.
  destruct (shl_align m e (fexp prec emax (Z.pos (digits2_pos m) + e))) as [mz ez].
  unfold binary_round_aux.
  destruct (shr_fexp prec emax (Z.pos mz) ez loc_Exact) as [mrs e'].
  destruct (shr_fexp prec emax _ e' loc_Exact) as [mrs' e''].
  destruct (shr_m mrs') as [|p|p]; [reflexivity | | reflexivity].
  destruct (e'' <=? emax - prec); reflexivity.
Qed.

Lemma SFabs_binary_normalize_opp prec emax z e :
  SFabs (binary_normalize prec emax (- z) e false) =
  SFabs (binary_normalize prec emax z e false).
Proof.
  destruct z as [|p|p]; simpl; [reflexivity | |];
    [| symmetry]; apply SFabs_binary_round.
Qed.

(** [|x - y| = |y - x|] holds exactly in floating point. *)
Lemma SFabs_sub_comm prec emax x y :
  SFabs (SFsub prec emax x y) = SFabs (SFsub prec emax y x).
Proof.
  destruct x as [sx|sx| |sx mx ex], y as [sy|sy| |sy my ey];
    try reflexivity; try (destruct sx, sy; reflexivity).
  unfold SFsub. rewrite (Z.min_comm ey ex).
  rewrite <- SFabs_binary_normalize_opp. f_equal. f_equal. lia.
Qed.




(** ** get_fg_mask *)


Lemma is_foreground_sym bg vt st px :
  is_foreground (rgb_to_sv bg) vt st px =
  (let '(s_bg, v_bg) := rgb_to_sv bg in
   let '(s, v) := rgb_to_sv px in
   f32_geb (f32_abs (f32_sub v v_bg)) vt || f32_geb (f32_abs (f32_sub s s_bg)) st).
Proof.
  unfold is_foreground.
  destruct (rgb_to_sv bg) as [s_bg v_bg], (rgb_to_sv px) as [s v].
  unfold f32_abs, f32_sub.
  now rewrite (SFabs_sub_comm 24 128 v_bg v), (SFabs_sub_comm 24 128 s_bg s).
Qed.



(** ** apply_palette *)

Lemma mask_assign_select (f : rgb -> Z) (g : rgb -> bool) (pixels : list rgb) :
  mask_assign (replicate (length pixels) 0) (map g pixels)
    (map f (mask_select pixels (map g pixels))) =
  map (fun px => if g px then astype_uint8 (f px) else 0) pixels.
Proof.
  induction pixels as [|px pixels IH]; simpl; [reflexivity|].
  destruct (g px); simpl; now rewrite IH.
Qed.

Lemma argmin_sq_dist px palette :
  palette <> [] ->
  exists (j : nat) c, argmin (map (sq_dist px) palette) = Some j /\
    palette !! j = Some c /\
    forall c', In c' palette -> sq_dist px c <= sq_dist px c'.
Proof.
  intros Hne.
  destruct (argmin (map (sq_dist px) palette)) as [j|] eqn:Hj.
  2:{ destruct palette; [congruence | discriminate]. }
  destruct (argmin_spec _ _ Hj) as (d & Hd & Hall).
  rewrite lookup_map in Hd. destruct (palette !! j) as [c|] eqn:Hc; [|discriminate].
  injection Hd as <-. exists j, c. split; [reflexivity|]. split; [exact Hc|].
  intros c' Hc'. rewrite Forall_map, Forall_forall in Hall.
  apply Hall. now apply list_elem_of_In.
Qed.

(** C1 (as the code has it). For a non-empty palette, [apply_palette]
    returns a label map of the image's spatial shape, one label per pixel,
    every label in [0, len(palette)).  A pixel classified as background
    against [palette[0]] has label 0 whatever the palette holds; a pixel
    classified as foreground has the index, stored as an 8-bit value, of a
    palette entry at the least Euclidean distance among all entries, entry 0
    included: the index itself when the palette has at most 256 entries. *)
Theorem apply_palette_labels img palette vt st :
  palette <> [] ->
  exists labels bg,
    palette !! 0%nat = Some bg /\
    apply_palette img palette vt st = Ok labels /\
    shape labels = shape img /\
    length (flat labels) = length (flat img) /\
    forall (i : nat) px, flat img !! i = Some px ->
      exists l, flat labels !! i = Some l /\
        0 <= l < Z.of_nat (length palette) /\
        (is_foreground (rgb_to_sv bg) vt st px = false -> l = 0) /\
        (is_foreground (rgb_to_sv bg) vt st px = true ->
         exists (j : nat) c, palette !! j = Some c /\
           (forall c', In c' palette -> sq_dist px c <= sq_dist px c') /\
           l = Z.of_nat j mod 256 /\
           ((length palette <= 256)%nat -> l = Z.of_nat j)).
Proof.
  intros Hne.
  assert (Hbg : exists bg, palette !! 0%nat = Some bg).
  { destruct palette as [|bg rest]; [congruence | now exists bg]. }
  destruct Hbg as [bg Hbg].
  set (nearest := fun o : rgb => Z.of_nat (default 0%nat (argmin (map (sq_dist o) palette)))).
  exists (NdArray (shape img)
            (map (fun px => if is_foreground (rgb_to_sv bg) vt st px
                            then astype_uint8 (nearest px) else 0) (flat img))), bg.
  split; [assumption|]. split.
  { unfold apply_palette. rewrite Hbg. unfold get_fg_mask, vq.
    rewrite <- (mask_assign_select nearest). subst nearest.
    destruct palette; [congruence | reflexivity]. }
  split; [reflexivity|]. split; [apply length_map|].
  intros i px Hpx. simpl flat. rewrite lookup_map, Hpx. simpl.
  eexists; split; [reflexivity|].
  assert (Hlen : 0 < Z.of_nat (length palette)).
  { destruct palette; [congruence | simpl; lia]. }
  destruct (argmin_sq_dist px palette Hne) as (j & c & Hj & Hc & Hmin).
  assert (Hjlt : (j < length palette)%nat) by (eapply lookup_lt_Some; exact Hc).
  assert (Hn : nearest px = Z.of_nat j) by (unfold nearest; now rewrite Hj).
  pose proof (Z.mod_pos_bound (Z.of_nat j) 256 ltac:(lia)) as Hmod.
  pose proof (Z.mod_le (Z.of_nat j) 256 ltac:(lia) ltac:(lia)) as Hle.
  destruct (is_foreground (rgb_to_sv bg) vt st px).
  - unfold astype_uint8. rewrite Hn. split; [lia|]. split; [discriminate|].
    intros _. exists j, c. split; [assumption|]. split; [assumption|].
    split; [reflexivity|]. intros H256. apply Z.mod_small. lia.
  - split; [lia|]. split; [reflexivity | discriminate].
Qed.

Lemma apply_palette_labels_witness :
  exists labels bg,
    [(254, 254, 254); (10, 10, 10)] !! 0%nat = Some bg /\
    apply_palette (NdArray [1; 2]%nat [(255, 255, 255); (0, 0, 0)])
      [(254, 254, 254); (10, 10, 10)] (f32_div (f32_of_Z 1) (f32_of_Z 4))
      (f32_div (f32_of_Z 1) (f32_of_Z 5)) = Ok labels /\
    shape labels = [1; 2]%nat.
Proof.
  destruct (apply_palette_labels (NdArray [1; 2]%nat [(255, 255, 255); (0, 0, 0)])
              [(254, 254, 254); (10, 10, 10)] (f32_div (f32_of_Z 1) (f32_of_Z 4))
              (f32_div (f32_of_Z 1) (f32_of_Z 5)) ltac:(discriminate))
    as (labels & bg & H0 & H1 & H2 & _).
  exists labels, bg. repeat split; assumption.
Defined.

(** C1 as stated fails for a palette of more than 256 entries: the pixel
    (0,1,0) is foreground against the background (0,0,0), its nearest palette
    entry is entry 256, at distance 0, and the label stored is 0. *)
Lemma apply_palette_wraps :
  let palette := map (fun i => (i mod 256, i / 256, 0)) (seqZ 0 257) in
  let vt := f32_div (f32_of_Z 1) (f32_of_Z 4) in
  let st := f32_div (f32_of_Z 1) (f32_of_Z 5) in
  palette !! 0%nat = Some (0, 0, 0) /\
  is_foreground (rgb_to_sv (0, 0, 0)) vt st (0, 1, 0) = true /\
  palette !! 256%nat = Some (0, 1, 0) /\
  argmin (map (sq_dist (0, 1, 0)) palette) = Some 256%nat /\
  sq_dist (0, 1, 0) (0, 0, 0) = 1 /\
  apply_palette (NdArray [1; 1]%nat [(0, 1, 0)]) palette vt st = Ok (NdArray [1; 1]%nat [0]).
Proof. vm_compute. repeat split. Qed.

Example get_palette_ex :
  requested_clusters
    (get_palette [(255,255,255); (255,255,255); (255,255,255); (0,0,0)] 8
       (f32_div (f32_of_Z 1) (f32_of_Z 4)) (f32_div (f32_of_Z 1) (f32_of_Z 5)) None) = Some 7.
Proof. reflexivity. Qed.

Example num_samples_ex : num_samples_of 10 (SFdiv 53 1024 (f64_of_Z 5) (f64_of_Z 100)) = Ok 0.
Proof. reflexivity. Qed.
Example num_samples_ex2 : num_samples_of 1000 (SFdiv 53 1024 (f64_of_Z 5) (f64_of_Z 100)) = Ok 50.
Proof. reflexivity. Qed.

Example save_png_ex :
  written (save_png 0 (NdArray [1;1]%nat [0]) 0%nat (150, 150) true false
             (World [U8 [(10,10,10); (200,200,200)]] [])).2
  = [Png 0 (NdArray [1;1]%nat [0]) (U8 [(0,0,0); (255,255,255)]) (150, 150)].
Proof. reflexivity. Qed.

Example process_ex :
  (run plain_externals
     (process_images_with_noteshrink
        [Page (NdArray [2;2]%nat [(255,255,255); (255,255,255); (255,255,255); (0,0,0)]) None]
        (Options 8 (f32_div (f32_of_Z 1) (f32_of_Z 4)) (f32_div (f32_of_Z 1) (f32_of_Z 5))
           true false false (SFdiv 53 1024 (f64_of_Z 5) (f64_of_Z 100)))
        (World [] [])) tt).1 = Err "ValueError".
Proof. reflexivity. Qed.

Example process_ex_ok :
  (run plain_externals
     (process_images_with_noteshrink
        [Page (NdArray [2;2]%nat [(255,255,255); (255,255,255); (255,255,255); (0,0,0)]) None]
        (Options 2 (f32_div (f32_of_Z 1) (f32_of_Z 4)) (f32_div (f32_of_Z 1) (f32_of_Z 5))
           true true false (f64_of_Z 1))
        (World [] [])) tt).1 =
  Ok ([0%nat], World [U8 [(254,254,254); (0,0,0)]; F32 (to_f32 (U8 [(254,254,254); (0,0,0)]));
                       F32 (to_f32 (U8 [(254,254,254); (0,0,0)]));
                       F32 (to_f32 (U8 [(64770,64770,64770); (0,0,0)]));
                       F32 (to_f32 (U8 [(255,255,255); (0,0,0)]));
                       U8 [(255,255,255); (0,0,0)]]
                [Png 0 (NdArray [2;2]%nat [0;0;0;1]) (U8 [(255,255,255); (0,0,0)]) (150,150)]).
Proof. vm_compute. reflexivity. Qed.

(** ** get_palette *)








(** C7 (as the code has it). Whenever some sample is foreground,
    [get_palette] hands [num_colors - 1] to the clustering routine as it is,
    however few distinct foreground colours there are, and raises nothing of
    its own; what the routine returns becomes the palette after the
    background, and what it raises ends [get_palette]. *)
Theorem get_palette_cluster_count samples n vt st iter bg :
  get_bg_color samples (Some 6) = Ok bg ->
  mask_sum (get_fg_mask bg samples vt st) <> 0 ->
  requested_clusters (get_palette samples n vt st iter) = Some (n - 1) /\
  (forall e, get_palette samples n vt st iter <> Raise e) /\
  forall (S : Type) (ext : externals S) (s : S),
    run ext (get_palette samples n vt st iter) s =
    match ext_kmeans ext
            (map (map_rgb f32_of_Z) (mask_select samples (get_fg_mask bg samples vt st)))
            (n - 1) (default 40 iter) s with
    | (Ok centers, s') => (Ok (bg :: map (map_rgb f32_to_uint8) centers), s')
    | (Err e, s') => (Err e, s')
    end.
Proof.
  intros Hbg Hfg. unfold get_palette. rewrite Hbg. simpl.
  destruct (Z.eqb_spec (mask_sum (get_fg_mask bg samples vt st)) 0) as [E | E]; [contradiction|].
  split; [reflexivity|]. split; [discriminate|].
  intros S ext s. simpl.
  destruct (ext_kmeans ext _ _ _ s) as [[centers | e] s']; reflexivity.
Qed.

Lemma get_palette_cluster_count_witness :
  requested_clusters
    (get_palette [(255, 255, 255); (255, 255, 255); (255, 255, 255); (0, 0, 0)] 8
       (f32_div (f32_of_Z 1) (f32_of_Z 4)) (f32_div (f32_of_Z 1) (f32_of_Z 5)) None) = Some (8 - 1).
Proof.
  apply (get_palette_cluster_count
           [(255, 255, 255); (255, 255, 255); (255, 255, 255); (0, 0, 0)] 8
           (f32_div (f32_of_Z 1) (f32_of_Z 4)) (f32_div (f32_of_Z 1) (f32_of_Z 5)) None
           (254, 254, 254)).
  - reflexivity.
  - vm_compute. discriminate.
Defined.

(** C7 as stated fails: one distinct foreground colour, eight colours asked
    for, and [get_palette] requests seven clusters and raises nothing. *)
Lemma get_palette_no_guard :
  let samples := [(255, 255, 255); (255, 255, 255); (255, 255, 255); (0, 0, 0)] in
  let vt := f32_div (f32_of_Z 1) (f32_of_Z 4) in
  let st := f32_div (f32_of_Z 1) (f32_of_Z 5) in
  distinct_foreground samples vt st = Ok 1 /\
  requested_clusters (get_palette samples 8 vt st None) = Some 7 /\
  get_palette samples 8 vt st None <> Raise "DegenerateClusteringError".
Proof. vm_compute. repeat split. discriminate. Qed.

(** ** Running programs *)

Lemma run_bind {S A B : Type} (ext : externals S) (p : prog A) (f : A -> prog B) :
  forall s,
    run ext (prog_bind p f) s =
    match run ext p s with
    | (Ok a, s') => run ext (f a) s'
    | (Err e, s') => (Err e, s')
    end.
Proof.
  induction p as [a | e | n k IH | obs kk it k IH]; intros s; simpl.
  - reflexivity.
  - reflexivity.
  - destruct (ext_shuffle ext n s) as [idx s']. apply IH.
  - destruct (ext_kmeans ext obs kk it s) as [[centers | e] s']; [apply IH | reflexivity].
Qed.







(** ** Checks by enumeration over the 8-bit values *)

Lemma sf_beq_eq x y : sf_beq x y = true -> x = y.
Proof.
  destruct x as [s1|s1| |s1 m1 e1], y as [s2|s2| |s2 m2 e2]; simpl; try discriminate.
  - intros H. apply Bool.eqb_prop in H. now subst.
  - intros H. apply Bool.eqb_prop in H. now subst.
  - reflexivity.
  - rewrite !andb_true_iff. intros [[H1 H2] H3].
    apply Bool.eqb_prop in H1. apply Pos.eqb_eq in H2. apply Z.eqb_eq in H3. now subst.
Qed.

Lemma check_pairs_spec P :
  check_pairs P = true -> forall a b, uint8 a -> uint8 b -> P a b = true.
Proof.
  unfold check_pairs, uint8. intros H a b Ha Hb.
  rewrite forallb_forall in H. specialize (H a).
  rewrite forallb_forall in H. apply H.
  - apply list_elem_of_In, elem_of_seqZ. lia.
  - apply list_elem_of_In, elem_of_seqZ. lia.
Qed.

(** The conversion of 8-bit integers to [float32] preserves the order. *)
Lemma f32_ltb_of_Z a b :
  uint8 a -> uint8 b -> f32_ltb (f32_of_Z a) (f32_of_Z b) = (a <? b).
Proof.
  intros Ha Hb. apply Bool.eqb_prop.
  apply (check_pairs_spec (fun a b => Bool.eqb (f32_ltb (f32_of_Z a) (f32_of_Z b)) (a <? b)));
    [vm_compute; reflexivity | assumption | assumption].
Qed.

(** Differences of 8-bit integers are exact in [float32]. *)
Lemma f32_sub_of_Z a b :
  uint8 a -> uint8 b -> a <= b -> f32_sub (f32_of_Z b) (f32_of_Z a) = f32_of_Z (b - a).
Proof.
  intros Ha Hb Hab. apply sf_beq_eq.
  pose proof (check_pairs_spec
    (fun a b => (b <? a) || sf_beq (f32_sub (f32_of_Z b) (f32_of_Z a)) (f32_of_Z (b - a)))
    ltac:(vm_compute; reflexivity) a b Ha Hb) as H.
  simpl in H. apply orb_true_iff in H as [H | H]; [|exact H].
  apply Z.ltb_lt in H. lia.
Qed.

(** The rescaled entry [255 * k / d], computed in [float32] and converted to
    [uint8], is the integer quotient. *)
Lemma f32_rescale k d :
  0 <= k <= d -> 1 <= d <= 255 ->
  f32_to_uint8 (f32_div (f32_mul (f32_of_Z 255) (f32_of_Z k)) (f32_of_Z d)) = 255 * k / d.
Proof.
  intros Hk Hd. apply Z.eqb_eq.
  pose proof (check_pairs_spec
    (fun k d => (d <? k) || (d =? 0) ||
       (f32_to_uint8 (f32_div (f32_mul (f32_of_Z 255) (f32_of_Z k)) (f32_of_Z d)) =? 255 * k / d))
    ltac:(vm_compute; reflexivity) k d ltac:(unfold uint8; lia) ltac:(unfold uint8; lia)) as H.
  simpl in H. rewrite !orb_true_iff in H. destruct H as [[H | H] | H]; [| |exact H].
  - apply Z.ltb_lt in H. lia.
  - apply Z.eqb_eq in H. lia.
Qed.

Lemma f32_to_uint8_of_Z x : uint8 x -> f32_to_uint8 (f32_of_Z x) = x.
Proof.
  intros Hx. apply Z.eqb_eq.
  apply (check_pairs_spec (fun x _ => f32_to_uint8 (f32_of_Z x) =? x)
           ltac:(vm_compute; reflexivity) x 0 Hx ltac:(unfold uint8; lia)).
Qed.

(** ** The heap: what a call leaves unchanged *)

Lemma extends_refl w : extends w w.
Proof. exists []. now rewrite app_nil_r. Qed.

Lemma extends_trans w1 w2 w3 : extends w1 w2 -> extends w2 w3 -> extends w1 w3.
Proof. intros [m1 H1] [m2 H2]. exists (m1 ++ m2). now rewrite H2, H1, app_assoc. Qed.

Lemma extends_lookup w w' (r : ref) a :
  extends w w' -> heap w !! r = Some a -> heap w' !! r = Some a.
Proof. intros [more ->] H. now apply lookup_app_l_Some. Qed.

Lemma frames_ret {A : Type} (a : A) : frames (M_ret a).
Proof. intros w. apply extends_refl. Qed.

Lemma frames_raise {A : Type} e : frames (@M_raise A e).
Proof. intros w. apply extends_refl. Qed.

Lemma frames_bind {A B : Type} (m : M A) (f : A -> M B) :
  frames m -> (forall a, frames (f a)) -> frames (M_bind m f).
Proof.
  intros Hm Hf w. unfold M_bind. specialize (Hm w).
  destruct (m w) as [[a | e] w']; simpl in *; [|assumption].
  eapply extends_trans; [exact Hm | apply Hf].
Qed.

Lemma frames_alloc a : frames (alloc a).
Proof. intros w. exists [a]. reflexivity. Qed.

Lemma frames_load r : frames (load r).
Proof. intros w. unfold load. destruct (heap w !! r); apply extends_refl. Qed.

Create HintDb frames.
#[local] Hint Resolve frames_ret frames_raise frames_alloc frames_load : frames.

(** Splits a sequence of operations into its steps and closes those that
    are known to leave the heap as it is. *)
Ltac frames_steps :=
  repeat (apply frames_bind; [|intros ?]); auto with frames.

Lemma frames_astype_float32 r : frames (astype_float32 r).
Proof. unfold astype_float32. frames_steps. Qed.

Lemma frames_astype_uint8_array r : frames (astype_uint8_array r).
Proof. unfold astype_uint8_array. frames_steps. Qed.

Lemma frames_map_array f r : frames (map_array f r).
Proof. unfold map_array. frames_steps. Qed.

Lemma frames_np_min r : frames (np_min r).
Proof.
  unfold np_min. apply frames_bind; [auto with frames | intros a].
  destruct (entries (to_f32 a)); auto with frames.
Qed.

Lemma frames_np_max r : frames (np_max r).
Proof.
  unfold np_max. apply frames_bind; [auto with frames | intros a].
  destruct (entries (to_f32 a)); auto with frames.
Qed.

Lemma frames_write_png file labels r dpi : frames (write_png file labels r dpi).
Proof.
  apply frames_bind; [apply frames_load|]. intros a w. exists []. simpl.
  now rewrite app_nil_r.
Qed.

(** The only write in place goes to the copy made just before it. *)
Lemma frames_copy_setitem r i row :
  frames (palette <- np_copy r ;; _ <- setitem_row palette i row ;; M_ret palette).
Proof.
  intros [h wr]. unfold np_copy, M_bind, load, alloc, setitem_row, M_ret. simpl.
  destruct (h !! r) as [a|] eqn:Hr; simpl; [|apply extends_refl].
  assert (Hmid : (h ++ [a]) !! length h = Some a)
    by (apply list_lookup_middle; reflexivity).
  rewrite Hmid.
  assert (Hins : forall a', <[length h := a']> (h ++ [a]) = h ++ [a']).
  { intros a'. rewrite insert_app_r_alt by lia. now rewrite Nat.sub_diag. }
  destruct a as [rows | rows]; destruct (decide (i < length rows)%nat); simpl;
    try rewrite Hins; eexists; simpl; reflexivity.
Qed.

#[local] Hint Resolve frames_astype_float32 frames_astype_uint8_array frames_map_array
  frames_np_min frames_np_max frames_write_png frames_copy_setitem : frames.

Lemma frames_saturate_block palette : frames (saturate_block palette).
Proof.
  unfold saturate_block.
  apply frames_bind; [auto with frames | intros p1].
  apply frames_bind; [auto with frames | intros pmin].
  apply frames_bind; [auto with frames | intros pmax].
  apply frames_bind; [|auto with frames].
  destruct (f32_ltb pmin pmax); [|auto with frames].
  apply frames_bind; [auto with frames | intros t1].
  apply frames_bind; [auto with frames | intros t2].
  auto with frames.
Qed.

Lemma frames_save_png file labels palette dpi saturate white_bg :
  frames (save_png file labels palette dpi saturate white_bg).
Proof.
  unfold save_png. apply frames_bind.
  - destruct saturate; [apply frames_saturate_block | auto with frames].
  - intros p. apply frames_bind; [|auto with frames].
    destruct white_bg; [unfold white_bg_block|]; auto with frames.
Qed.

Lemma process_pages_global_extends {St : Type} (ext : externals St) (p : ref) opts image_files :
  forall idx w s processed_files w',
    (run ext (process_pages (Some p) opts idx image_files w) s).1 = Ok (processed_files, w') ->
    extends w w'.
Proof.
  induction image_files as [|img_file rest IH]; intros idx w s files w' Hrun.
  - simpl in Hrun. injection Hrun as _ <-. apply extends_refl.
  - simpl in Hrun. unfold io_bind, io_ret in Hrun. simpl in Hrun.
    unfold of_M at 1 in Hrun. unfold load in Hrun.
    destruct (heap w !! p) as [colors|]; simpl in Hrun; [|discriminate].
    unfold of_result, of_prog in Hrun.
    destruct (apply_palette _ _ _ _) as [labels | e]; simpl in Hrun; [|discriminate].
    unfold of_M in Hrun.
    pose proof (frames_save_png idx labels p (default (150, 150) (page_dpi img_file))
                  (saturate opts) (white_bg opts) w) as Hsave.
    destruct (save_png _ _ _ _ _ _ w) as [[[] | e] w1]; simpl in Hrun, Hsave; [|discriminate].
    rewrite run_bind in Hrun.
    destruct (run ext (process_pages (Some p) opts (S idx) rest w1) s) as [[[files1 w2] | e] s2]
      eqn:Hrec; simpl in Hrun; [|discriminate].
    injection Hrun as _ <-.
    eapply extends_trans; [exact Hsave|].
    apply (IH (S idx) w1 s files1 w2). now rewrite Hrec.
Qed.

(** C10. [save_png] changes no array that exists when it is called: every
    reference of the caller, the palette's among them, holds the same array
    after the call, whether it returns or raises.  Hence the one palette of
    the global mode is the same array, entry for entry, after all pages have
    been processed. *)
Theorem save_png_keeps_palette file labels (palette : ref) dpi saturate white_bg w :
  (forall (r : ref) a,
     heap w !! r = Some a ->
     heap (save_png file labels palette dpi saturate white_bg w).2 !! r = Some a) /\
  (forall (S : Type) (ext : externals S) (s : S) opts idx image_files processed_files w',
     (run ext (process_pages (Some palette) opts idx image_files w) s).1
     = Ok (processed_files, w') ->
     forall (r : ref) a, heap w !! r = Some a -> heap w' !! r = Some a).
Proof.
  split.
  - intros r a Hr. eapply extends_lookup; [apply frames_save_png | exact Hr].
  - intros S ext s opts idx image_files files w' Hrun r a Hr.
    eapply extends_lookup; [|exact Hr].
    eapply process_pages_global_extends. exact Hrun.
Qed.

Lemma save_png_keeps_palette_witness :
  heap (save_png 0 (NdArray [1; 1]%nat [0]) 0%nat (150, 150) true true
          (World [U8 [(10, 20, 30); (200, 100, 50)]] [])).2 !! 0%nat
  = Some (U8 [(10, 20, 30); (200, 100, 50)]).
Proof.
  apply (proj1 (save_png_keeps_palette 0 (NdArray [1; 1]%nat [0]) 0%nat (150, 150) true true
                  (World [U8 [(10, 20, 30); (200, 100, 50)]] []))).
  reflexivity.
Defined.

(** ** The least and the greatest entry of a palette *)

Lemma foldl_min_spec t : forall x,
  In (foldl Z.min x t) (x :: t) /\ Forall (fun y => foldl Z.min x t <= y) (x :: t).
Proof.
  induction t as [|y t IH]; intros x; simpl.
  - split; [now left | repeat constructor; lia].
  - destruct (IH (Z.min x y)) as [Hin Hall]. simpl in Hin.
    apply Forall_cons in Hall as [H1 Hall]. split.
    + destruct Hin as [Hin | Hin]; [|now right; right].
      rewrite <- Hin. destruct (Z.min_spec x y) as [[_ ->] | [_ ->]]; [now left | right; now left].
    + repeat constructor; [lia | lia | assumption].
Qed.

Lemma foldl_max_spec t : forall x,
  In (foldl Z.max x t) (x :: t) /\ Forall (fun y => y <= foldl Z.max x t) (x :: t).
Proof.
  induction t as [|y t IH]; intros x; simpl.
  - split; [now left | repeat constructor; lia].
  - destruct (IH (Z.max x y)) as [Hin Hall]. simpl in Hin.
    apply Forall_cons in Hall as [H1 Hall]. split.
    + destruct Hin as [Hin | Hin]; [|now right; right].
      rewrite <- Hin. destruct (Z.max_spec x y) as [[_ ->] | [_ ->]]; [right; now left | now left].
    + repeat constructor; [lia | lia | assumption].
Qed.

Lemma f32_min_of_Z a b :
  uint8 a -> uint8 b -> f32_min (f32_of_Z a) (f32_of_Z b) = f32_of_Z (Z.min a b).
Proof.
  intros Ha Hb. unfold f32_min. rewrite f32_ltb_of_Z by assumption.
  destruct (Z.ltb_spec b a); f_equal; lia.
Qed.

Lemma f32_max_of_Z a b :
  uint8 a -> uint8 b -> f32_max (f32_of_Z a) (f32_of_Z b) = f32_of_Z (Z.max a b).
Proof.
  intros Ha Hb. unfold f32_max. rewrite f32_ltb_of_Z by assumption.
  destruct (Z.ltb_spec a b); f_equal; lia.
Qed.

Lemma foldl_f32_min t : forall x,
  uint8 x -> Forall uint8 t ->
  foldl f32_min (f32_of_Z x) (map f32_of_Z t) = f32_of_Z (foldl Z.min x t).
Proof.
  induction t as [|y t IH]; intros x Hx Ht; simpl; [reflexivity|].
  apply Forall_cons in Ht as [Hy Ht].
  rewrite f32_min_of_Z by assumption. apply IH; [|assumption].
  unfold uint8 in *. lia.
Qed.

Lemma foldl_f32_max t : forall x,
  uint8 x -> Forall uint8 t ->
  foldl f32_max (f32_of_Z x) (map f32_of_Z t) = f32_of_Z (foldl Z.max x t).
Proof.
  induction t as [|y t IH]; intros x Hx Ht; simpl; [reflexivity|].
  apply Forall_cons in Ht as [Hy Ht].
  rewrite f32_max_of_Z by assumption. apply IH; [|assumption].
  unfold uint8 in *. lia.
Qed.

Lemma entries_of_Z palette :
  entries (map (map_rgb f32_of_Z) palette) = map f32_of_Z (channels palette).
Proof.
  induction palette as [|[[r g] b] palette IH]; simpl; [reflexivity|]. now rewrite IH.
Qed.

Lemma channels_uint8 palette : Forall uint8_rgb palette -> Forall uint8 (channels palette).
Proof.
  induction 1 as [|[[r g] b] palette (Hr & Hg & Hb) _ IH]; simpl; [constructor|].
  apply Forall_cons_2; [assumption|]. apply Forall_cons_2; [assumption|].
  apply Forall_cons_2; assumption.
Qed.

Lemma channels_bounds (P : Z -> Prop) palette :
  Forall P (channels palette) ->
  Forall (fun c : rgb => let '(r, g, b) := c in P r /\ P g /\ P b) palette.
Proof.
  induction palette as [|[[r g] b] palette IH]; simpl; intros H; [constructor|].
  apply Forall_cons in H as [Hr H]. apply Forall_cons in H as [Hg H].
  apply Forall_cons in H as [Hb H]. constructor; auto.
Qed.

Lemma channels_nonempty palette : palette <> [] -> channels palette <> [].
Proof. destruct palette as [|[[r g] b] palette]; [congruence | discriminate]. Qed.

(** One entry rescaled in [float32] and stored as [uint8]. *)
Lemma rescale_channel pmin pmax x :
  uint8 pmin -> uint8 pmax -> pmin < pmax -> pmin <= x <= pmax ->
  f32_to_uint8
    (f32_div (f32_mul (f32_of_Z 255) (f32_sub (f32_of_Z x) (f32_of_Z pmin)))
             (f32_sub (f32_of_Z pmax) (f32_of_Z pmin)))
  = 255 * (x - pmin) / (pmax - pmin).
Proof.
  intros Hmin Hmax Hlt Hx. unfold uint8 in *.
  rewrite !f32_sub_of_Z by (unfold uint8; lia).
  apply f32_rescale; lia.
Qed.

Lemma rescale_rows pmin pmax palette :
  uint8 pmin -> uint8 pmax -> pmin < pmax ->
  Forall (fun c : rgb => let '(r, g, b) := c in
            pmin <= r <= pmax /\ pmin <= g <= pmax /\ pmin <= b <= pmax) palette ->
  map (map_rgb f32_to_uint8)
    (map (map_rgb (fun v => f32_div v (f32_sub (f32_of_Z pmax) (f32_of_Z pmin))))
       (map (map_rgb (fun v => f32_mul (f32_of_Z 255) v))
          (map (map_rgb (fun v => f32_sub v (f32_of_Z pmin)))
             (map (map_rgb f32_of_Z) palette))))
  = map (map_rgb (fun x => 255 * (x - pmin) / (pmax - pmin))) palette.
Proof.
  intros Hmin Hmax Hlt Hall.
  induction Hall as [|[[r g] b] palette (Hr & Hg & Hb) _ IH]; cbn [map map_rgb];
    [reflexivity|].
  rewrite IH. now rewrite !rescale_channel by assumption.
Qed.

Lemma unscaled_rows palette :
  Forall uint8_rgb palette ->
  map (map_rgb f32_to_uint8) (map (map_rgb f32_of_Z) palette) = palette.
Proof.
  intros Hall.
  induction Hall as [|[[r g] b] palette (Hr & Hg & Hb) _ IH]; cbn [map map_rgb];
    [reflexivity|].
  rewrite IH. now rewrite !f32_to_uint8_of_Z by assumption.
Qed.

Lemma spec_saturate_length palette : length (spec_saturate palette) = length palette.
Proof.
  unfold spec_saturate. destruct (channels palette); [reflexivity|].
  destruct (_ <? _); [apply length_map | reflexivity].
Qed.

(** ** Running the heap operations of save_png *)

Lemma M_bind_run {A B : Type} (m : M A) (f : A -> M B) w a w' :
  m w = (Ok a, w') -> M_bind m f w = f a w'.
Proof. intros H. unfold M_bind. now rewrite H. Qed.

Lemma M_bind_assoc {A B C : Type} (m : M A) (f : A -> M B) (g : B -> M C) w :
  M_bind (M_bind m f) g w = M_bind m (fun a => M_bind (f a) g) w.
Proof. unfold M_bind. destruct (m w) as [[a | e] w']; reflexivity. Qed.

Lemma astype_float32_run h wr (r : ref) a :
  h !! r = Some a ->
  astype_float32 r (World h wr) = (Ok (length h), World (h ++ [F32 (to_f32 a)]) wr).
Proof. intros H. unfold astype_float32, M_bind, load, alloc. simpl. now rewrite H. Qed.

Lemma astype_uint8_array_run h wr (r : ref) a :
  h !! r = Some a ->
  astype_uint8_array r (World h wr) = (Ok (length h), World (h ++ [U8 (to_u8 a)]) wr).
Proof. intros H. unfold astype_uint8_array, M_bind, load, alloc. simpl. now rewrite H. Qed.

Lemma map_array_run f h wr (r : ref) a :
  h !! r = Some a ->
  map_array f r (World h wr)
  = (Ok (length h), World (h ++ [F32 (map (map_rgb f) (to_f32 a))]) wr).
Proof. intros H. unfold map_array, M_bind, load, alloc. simpl. now rewrite H. Qed.

Lemma np_min_run h wr (r : ref) palette x t :
  h !! r = Some (F32 (map (map_rgb f32_of_Z) palette)) ->
  Forall uint8_rgb palette -> channels palette = x :: t ->
  np_min r (World h wr) = (Ok (f32_of_Z (foldl Z.min x t)), World h wr).
Proof.
  intros H Hpal Hch. unfold np_min, M_bind, load. simpl. rewrite H. simpl.
  rewrite entries_of_Z, Hch. simpl. unfold M_ret.
  pose proof (channels_uint8 _ Hpal) as Hu. rewrite Hch in Hu.
  apply Forall_cons in Hu as [Hx Ht]. now rewrite foldl_f32_min.
Qed.

Lemma np_max_run h wr (r : ref) palette x t :
  h !! r = Some (F32 (map (map_rgb f32_of_Z) palette)) ->
  Forall uint8_rgb palette -> channels palette = x :: t ->
  np_max r (World h wr) = (Ok (f32_of_Z (foldl Z.max x t)), World h wr).
Proof.
  intros H Hpal Hch. unfold np_max, M_bind, load. simpl. rewrite H. simpl.
  rewrite entries_of_Z, Hch. simpl. unfold M_ret.
  pose proof (channels_uint8 _ Hpal) as Hu. rewrite Hch in Hu.
  apply Forall_cons in Hu as [Hx Ht]. now rewrite foldl_f32_max.
Qed.

Lemma write_png_run file labels dpi h wr (r : ref) a :
  h !! r = Some a ->
  write_png file labels r dpi (World h wr) = (Ok tt, World h (wr ++ [Png file labels a dpi])).
Proof. intros H. unfold write_png, M_bind, load. simpl. now rewrite H. Qed.

Lemma lookup_fresh {A : Type} (h : list A) a : (h ++ [a]) !! length h = Some a.
Proof. now apply list_lookup_middle. Qed.

Lemma saturate_block_run h wr (p : ref) palette :
  h !! p = Some (U8 palette) -> Forall uint8_rgb palette -> palette <> [] ->
  exists (r' : ref) h',
    saturate_block p (World h wr) = (Ok r', World h' wr) /\
    h' !! r' = Some (U8 (spec_saturate palette)).
Proof.
  intros Hp Hpal Hne.
  destruct (channels palette) as [|x t] eqn:Hch; [now apply channels_nonempty in Hch|].
  pose proof (channels_uint8 _ Hpal) as Hu. rewrite Hch in Hu.
  destruct (foldl_min_spec t x) as [Hmin_in Hmin_le].
  destruct (foldl_max_spec t x) as [Hmax_in Hmax_le].
  assert (Hmin : uint8 (foldl Z.min x t)).
  { rewrite Forall_forall in Hu. apply Hu. now apply list_elem_of_In. }
  assert (Hmax : uint8 (foldl Z.max x t)).
  { rewrite Forall_forall in Hu. apply Hu. now apply list_elem_of_In. }
  unfold saturate_block, spec_saturate. rewrite Hch.
  rewrite (M_bind_run _ _ _ _ _ (astype_float32_run h wr p _ Hp)). simpl to_f32.
  rewrite (M_bind_run _ _ _ _ _ (np_min_run _ wr _ palette x t (lookup_fresh h _) Hpal Hch)).
  rewrite (M_bind_run _ _ _ _ _ (np_max_run _ wr _ palette x t (lookup_fresh h _) Hpal Hch)).
  rewrite f32_ltb_of_Z by assumption.
  destruct (Z.ltb_spec (foldl Z.min x t) (foldl Z.max x t)) as [Hlt | Hge].
  - rewrite !M_bind_assoc.
    rewrite (M_bind_run _ _ _ _ _ (map_array_run _ _ wr _ _ (lookup_fresh h _))).
    cbv beta. rewrite ?M_bind_assoc.
    rewrite (M_bind_run _ _ _ _ _ (map_array_run _ _ wr _ _ (lookup_fresh _ _))).
    cbv beta. rewrite ?M_bind_assoc.
    rewrite (M_bind_run _ _ _ _ _ (map_array_run _ _ wr _ _ (lookup_fresh _ _))).
    rewrite (astype_uint8_array_run _ wr _ _ (lookup_fresh _ _)).
    do 2 eexists. split; [reflexivity|].
    rewrite lookup_fresh. simpl to_f32. simpl to_u8. do 2 f_equal.
    apply rescale_rows; try assumption.
    apply (channels_bounds (fun y => foldl Z.min x t <= y <= foldl Z.max x t)).
    rewrite Hch. rewrite Forall_forall in *. intros y Hy. split; auto.
  - rewrite (M_bind_run _ _ _ _ _ (eq_refl : M_ret _ _ = (Ok _, _))).
    rewrite (astype_uint8_array_run _ wr _ _ (lookup_fresh _ _)).
    do 2 eexists. split; [reflexivity|].
    rewrite lookup_fresh. simpl to_u8. do 2 f_equal.
    now apply unscaled_rows.
Qed.

Lemma white_bg_block_run h wr (p : ref) palette :
  h !! p = Some (U8 palette) -> palette <> [] ->
  exists (r' : ref) h',
    white_bg_block p (World h wr) = (Ok r', World h' wr) /\
    h' !! r' = Some (U8 (<[0%nat := (255, 255, 255)]> palette)).
Proof.
  intros Hp Hne.
  unfold white_bg_block, np_copy, M_bind, load, alloc, setitem_row, M_ret. simpl.
  rewrite Hp. simpl. rewrite lookup_fresh.
  destruct (decide (0 < length palette)%nat) as [Hlt | Hge].
  - do 2 eexists. split; [reflexivity|].
    apply list_lookup_insert_eq. rewrite length_app. simpl. lia.
  - destruct palette; [congruence | simpl in Hge; lia].
Qed.

Lemma save_png_run file labels dpi saturate white_bg h wr (p : ref) palette :
  h !! p = Some (U8 palette) -> Forall uint8_rgb palette -> palette <> [] ->
  exists h',
    save_png file labels p dpi saturate white_bg (World h wr)
    = (Ok tt, World h' (wr ++ [Png file labels (U8 (spec_postprocess saturate white_bg palette)) dpi])).
Proof.
  intros Hp Hpal Hne. unfold save_png, spec_postprocess.
  assert (H1 : exists (r1 : ref) h1,
             (if saturate then saturate_block p else M_ret p) (World h wr)
             = (Ok r1, World h1 wr) /\
             h1 !! r1 = Some (U8 (if saturate then spec_saturate palette else palette))).
  { destruct saturate; [now apply saturate_block_run|]. now exists p, h. }
  destruct H1 as (r1 & h1 & E1 & Hr1).
  rewrite (M_bind_run _ _ _ _ _ E1).
  set (pal1 := if saturate then spec_saturate palette else palette) in *.
  assert (Hne1 : pal1 <> []).
  { subst pal1. destruct saturate; [|assumption].
    intros E. apply (f_equal length) in E. rewrite spec_saturate_length in E.
    destruct palette; [congruence | discriminate]. }
  assert (H2 : exists (r2 : ref) h2,
             (if white_bg then white_bg_block r1 else M_ret r1) (World h1 wr)
             = (Ok r2, World h2 wr) /\
             h2 !! r2 = Some (U8 (if white_bg then <[0%nat := (255, 255, 255)]> pal1 else pal1))).
  { destruct white_bg; [now apply white_bg_block_run|]. now exists r1, h1. }
  destruct H2 as (r2 & h2 & E2 & Hr2).
  rewrite (M_bind_run _ _ _ _ _ E2).
  exists h2. now apply write_png_run.
Qed.

Lemma spec_saturate_extremes palette pmin pmax :
  In pmin (channels palette) -> In pmax (channels palette) ->
  Forall (fun y => pmin <= y <= pmax) (channels palette) ->
  spec_saturate palette =
  if pmin <? pmax
  then map (map_rgb (fun x => 255 * (x - pmin) / (pmax - pmin))) palette
  else palette.
Proof.
  intros Hmin Hmax Hall. unfold spec_saturate.
  destruct (channels palette) as [|x t]; [contradiction|].
  destruct (foldl_min_spec t x) as [Hmin_in Hmin_le].
  destruct (foldl_max_spec t x) as [Hmax_in Hmax_le].
  rewrite Forall_forall in Hall, Hmin_le, Hmax_le.
  assert (E1 : foldl Z.min x t = pmin).
  { apply Z.le_antisymm.
    - apply Hmin_le. now apply list_elem_of_In.
    - apply (Hall (foldl Z.min x t)). now apply list_elem_of_In. }
  assert (E2 : foldl Z.max x t = pmax).
  { apply Z.le_antisymm.
    - apply (Hall (foldl Z.max x t)). now apply list_elem_of_In.
    - apply Hmax_le. now apply list_elem_of_In. }
  now rewrite E1, E2.
Qed.

(** C9. On a non-empty 8-bit palette [save_png] hands the encoder the
    palette post-processed in this order: first, if [saturate] is set, every
    entry [x] becomes [255 * (x - pmin) / (pmax - pmin)] (as an 8-bit
    integer), where [pmin] and [pmax] are the least and the greatest entry
    over all channels, so that [pmin] goes to 0 and [pmax] to 255, and
    nothing changes when [pmax = pmin]; then, if [white_bg] is set, entry 0
    becomes (255,255,255) and no other entry changes.  The palette
    [(10,10,10), (200,200,200)] saturates to [(0,0,0), (255,255,255)]. *)
Theorem save_png_postprocess file labels dpi saturate white_bg h wr (p : ref) palette :
  h !! p = Some (U8 palette) -> Forall uint8_rgb palette -> palette <> [] ->
  (exists h',
     save_png file labels p dpi saturate white_bg (World h wr)
     = (Ok tt, World h' (wr ++ [Png file labels
                                  (U8 (spec_postprocess saturate white_bg palette)) dpi]))) /\
  (forall pmin pmax,
     In pmin (channels palette) -> In pmax (channels palette) ->
     Forall (fun y => pmin <= y <= pmax) (channels palette) ->
     (pmin < pmax ->
      spec_postprocess true false palette
      = map (map_rgb (fun x => 255 * (x - pmin) / (pmax - pmin))) palette /\
      255 * (pmin - pmin) / (pmax - pmin) = 0 /\
      255 * (pmax - pmin) / (pmax - pmin) = 255) /\
     (pmin = pmax -> spec_postprocess true false palette = palette)) /\
  spec_postprocess false false palette = palette /\
  spec_postprocess saturate true palette !! 0%nat = Some (255, 255, 255) /\
  (forall i : nat, i <> 0%nat ->
     spec_postprocess saturate true palette !! i = spec_postprocess saturate false palette !! i) /\
  spec_postprocess true false [(10, 10, 10); (200, 200, 200)] = [(0, 0, 0); (255, 255, 255)].
Proof.
  intros Hp Hpal Hne.
  split; [now apply save_png_run|].
  split.
  { intros pmin pmax Hmin Hmax Hall. unfold spec_postprocess.
    rewrite (spec_saturate_extremes palette pmin pmax Hmin Hmax Hall). split.
    - intros Hlt. destruct (Z.ltb_spec pmin pmax); [|lia].
      split; [reflexivity|]. split.
      + rewrite Z.sub_diag, Z.mul_0_r. apply Z.div_0_l. lia.
      + apply Z.div_mul. lia.
    - intros ->. now rewrite Z.ltb_irrefl. }
  split; [reflexivity|].
  unfold spec_postprocess.
  set (pal1 := if saturate then spec_saturate palette else palette).
  assert (Hlen : (0 < length pal1)%nat).
  { subst pal1. destruct saturate; [rewrite spec_saturate_length|];
      (destruct palette; [congruence | simpl; lia]). }
  split; [now apply list_lookup_insert_eq|].
  split; [|reflexivity].
  intros i Hi. now apply list_lookup_insert_ne.
Qed.

Lemma save_png_postprocess_witness :
  exists h',
    save_png 0 (NdArray [1; 1]%nat [0]) 0%nat (150, 150) true true
      (World [U8 [(10, 10, 10); (200, 200, 200)]] [])
    = (Ok tt, World h' [Png 0 (NdArray [1; 1]%nat [0])
                          (U8 [(255, 255, 255); (255, 255, 255)]) (150, 150)]).
Proof.
  apply (proj1 (save_png_postprocess 0 (NdArray [1; 1]%nat [0]) (150, 150) true true
                  [U8 [(10, 10, 10); (200, 200, 200)]] [] 0%nat
                  [(10, 10, 10); (200, 200, 200)] eq_refl
                  ltac:(repeat constructor; unfold uint8; lia) ltac:(discriminate))).
Defined.

(** * Properties beyond the claims *)

(** ** pack_rgb, unpack_rgb, quantize *)

(** X1. [unpack_rgb] returns 8-bit channels for every integer, so packing
    and unpacking gives a triple back exactly when the triple is 8-bit. *)
Theorem unpack_pack_iff c :
  uint8_rgb (unpack_value (pack_value c)) /\
  (unpack_rgb (PackedInt (pack_value c)) = UnpackedTuple c <-> uint8_rgb c).
Proof.
  split; [apply unpack_value_uint8|]. simpl. split.
  - intros [= H]. rewrite <- H. apply unpack_value_uint8.
  - intros H. now rewrite unpack_pack_value.
Qed.

Lemma unpack_pack_iff_witness : unpack_rgb (PackedInt (pack_value (7, 255, 0))) = UnpackedTuple (7, 255, 0).
Proof.
  apply (proj2 (unpack_pack_iff (7, 255, 0))). repeat split; unfold uint8; lia.
Defined.

Lemma quantize_value_shiftr x b :
  b <= 8 -> Z.shiftr (quantize_value x b) (8 - b) = Z.shiftr x (8 - b).
Proof.
  intros Hb. unfold quantize_value.
  set (s := 8 - b). assert (Hs : 0 <= s) by (unfold s; lia).
  pose proof (halfbin_bounds s Hs) as Hh.
  set (h := Z.shiftr (Z.shiftl 1 s) 1) in *.
  rewrite !Z.shiftr_div_pow2, Z.shiftl_mul_pow2 by lia.
  rewrite Z.div_add_l by lia. rewrite (Z.div_small h) by lia. lia.
Qed.

Lemma quantize_value_same_bucket x y b :
  b <= 8 ->
  (quantize_value x b = quantize_value y b <-> Z.shiftr x (8 - b) = Z.shiftr y (8 - b)).
Proof.
  intros Hb. split.
  - intros H. rewrite <- (quantize_value_shiftr x b), <- (quantize_value_shiftr y b) by lia.
    now rewrite H.
  - intros H. unfold quantize_value. now rewrite H.
Qed.

(** X2. At a bit depth of at most 8, [quantize] keeps a value in its bucket,
    moves it by at most [halfbin], preserves the order of values, and at
    depth 8 changes nothing. *)
Theorem quantize_value_bucket x y b :
  0 <= b <= 8 ->
  Z.shiftr (quantize_value x b) (8 - b) = Z.shiftr x (8 - b) /\
  Z.abs (quantize_value x b - x) <= Z.shiftr (Z.shiftl 1 (8 - b)) 1 /\
  (x <= y -> quantize_value x b <= quantize_value y b) /\
  (b = 8 -> quantize_value x b = x).
Proof.
  intros Hb. split; [apply quantize_value_shiftr; lia|].
  unfold quantize_value.
  set (s := 8 - b). assert (Hs : 0 <= s) by (unfold s; lia).
  pose proof (halfbin_bounds s Hs) as Hh.
  assert (Hp : 0 < 2 ^ s) by (apply Z.pow_pos_nonneg; lia).
  assert (Hh2 : 2 ^ s - 1 <= 2 * Z.shiftr (Z.shiftl 1 s) 1).
  { rewrite Z.shiftl_1_l, Z.shiftr_div_pow2 by lia. change (2 ^ 1) with 2.
    pose proof (Z.div_mod (2 ^ s) 2 ltac:(lia)).
    pose proof (Z.mod_pos_bound (2 ^ s) 2 ltac:(lia)). lia. }
  set (h := Z.shiftr (Z.shiftl 1 s) 1) in *.
  rewrite !Z.shiftr_div_pow2, !Z.shiftl_mul_pow2 by lia.
  pose proof (Z.div_mod x (2 ^ s) ltac:(lia)) as Hx.
  pose proof (Z.mod_pos_bound x (2 ^ s) Hp) as Hxm.
  split; [|split].
  - apply Z.abs_le. lia.
  - intros Hxy. pose proof (Z.div_le_mono x y (2 ^ s) Hp Hxy). nia.
  - intros ->. subst s h. change (8 - 8) with 0 in *. simpl in *.
    rewrite Z.div_1_r. lia.
Qed.

Lemma quantize_value_bucket_witness : quantize_value 7 6 <= quantize_value 255 6.
Proof.
  apply (proj1 (proj2 (proj2 (quantize_value_bucket 7 255 6 ltac:(lia))))). lia.
Defined.

Lemma pack_value_inj c1 c2 :
  uint8_rgb c1 -> uint8_rgb c2 -> pack_value c1 = pack_value c2 -> c1 = c2.
Proof.
  intros H1 H2 E.
  rewrite <- (unpack_pack_value c1 H1), <- (unpack_pack_value c2 H2). now rewrite E.
Qed.

Lemma quantize_rgb_uint8' b c : 0 <= b <= 8 -> uint8_rgb c -> uint8_rgb (quantize_rgb b c).
Proof. apply quantize_rgb_uint8. Qed.

(** X3. The histogram key of a pixel, the packed quantised colour, names its
    bucket: two 8-bit pixels have the same key exactly when their channels
    agree in the [bits] high bits. *)
Theorem histogram_key_bucket b c1 c2 :
  0 <= b <= 8 -> uint8_rgb c1 -> uint8_rgb c2 ->
  (pack_value (quantize_rgb b c1) = pack_value (quantize_rgb b c2) <->
   bucket b c1 = bucket b c2).
Proof.
  intros Hb H1 H2. split.
  - intros E. apply pack_value_inj in E; try (apply quantize_rgb_uint8'; assumption).
    destruct c1 as [[r1 g1] b1], c2 as [[r2 g2] b2]. unfold quantize_rgb, bucket in *.
    simpl in *. injection E as Er Eg Eb.
    apply quantize_value_same_bucket in Er, Eg, Eb; try lia. congruence.
  - intros E. f_equal.
    destruct c1 as [[r1 g1] b1], c2 as [[r2 g2] b2]. unfold quantize_rgb, bucket in *.
    simpl in *. injection E as Er Eg Eb.
    apply quantize_value_same_bucket in Er, Eg, Eb; try lia. congruence.
Qed.

Lemma histogram_key_bucket_witness :
  pack_value (quantize_rgb 6 (252, 253, 254)) = pack_value (quantize_rgb 6 (255, 252, 255)).
Proof.
  apply (histogram_key_bucket 6 (252, 253, 254) (255, 252, 255)); try reflexivity.
  - lia.
  - repeat split; unfold uint8; lia.
  - repeat split; unfold uint8; lia.
Defined.

(** ** get_bg_color *)


Lemma quantize_negative_shift image bits :
  Forall uint8_rgb image -> 8 < default 6 bits ->
  quantize (image_of image) bits = Err "ValueError".
Proof.
  intros H Hb. rewrite image_of_uint8 by assumption.
  unfold quantize. cbn [array_dtype].
  destruct (8 - default 6 bits <? 0) eqn:E; [reflexivity | lia].
Qed.



Lemma arg_best_from_first l : forall best_i best i,
  let r := arg_best_from (fun x b => b <? x) best_i best i l in
  (r = best_i /\ Forall (fun y => y <= best) l) \/
  (exists j x, r = (i + j)%nat /\ l !! j = Some x /\ best < x /\
               Forall (fun y => y <= x) l /\
               forall (j' : nat) y, (j' < j)%nat -> l !! j' = Some y -> y < x).
Proof.
  induction l as [|x t IH]; intros best_i best i; simpl.
  - left. split; [reflexivity | constructor].
  - destruct (Z.ltb_spec best x) as [Hlt | Hge].
    + right. destruct (IH i x (S i)) as [[Hr Hall] | (j & y & Hr & Hj & Hxy & Hall & Hfirst)].
      * exists 0%nat, x. repeat split; [simpl in *; lia | assumption | |].
        -- constructor; [lia | assumption].
        -- intros j' y Hj'. lia.
      * exists (S j), y. repeat split; [simpl in *; lia | assumption | lia | |].
        -- constructor; [lia | assumption].
        -- intros [|j'] z Hj' Hz; simpl in Hz.
           ++ injection Hz as <-. assumption.
           ++ apply (Hfirst j'); [lia | assumption].
    + destruct (IH best_i best (S i)) as [[Hr Hall] | (j & y & Hr & Hj & Hxy & Hall & Hfirst)].
      * left. split; [assumption|]. constructor; assumption.
      * right. exists (S j), y. repeat split; [simpl in *; lia | assumption | assumption | |].
        -- constructor; [lia | assumption].
        -- intros [|j'] z Hj' Hz; simpl in Hz.
           ++ injection Hz as <-. lia.
           ++ apply (Hfirst j'); [lia | assumption].
Qed.

(** [argmax] returns the first index of the maximum. *)
Lemma argmax_first l i :
  argmax l = Some i ->
  exists x, l !! i = Some x /\ Forall (fun y => y <= x) l /\
            forall (j : nat) y, (j < i)%nat -> l !! j = Some y -> y < x.
Proof.
  destruct l as [|x t]; [discriminate|]. unfold argmax. simpl. intros [= <-].
  destruct (arg_best_from_first t 0%nat x 1%nat)
    as [[Hr Hall] | (j & y & Hr & Hj & Hxy & Hall & Hfirst)].
  - simpl in Hr. rewrite Hr. exists x. split; [reflexivity|]. split.
    + constructor; [lia | assumption].
    + intros j y Hj. lia.
  - simpl in Hr. rewrite Hr. exists y. split; [assumption|]. split.
    + constructor; [lia | assumption].
    + intros [|j'] z Hj' Hz; simpl in Hz.
      * injection Hz as <-. assumption.
      * apply (Hfirst j'); [lia | assumption].
Qed.

Lemma count_insert_In u c k h :
  In (u, c) (count_insert k h) -> u = k \/ exists c', In (u, c') h.
Proof.
  induction h as [|[u' c'] t IH]; simpl.
  - intros [[= -> _] | []]. now left.
  - destruct (k <? u').
    + intros [[= -> _] | [[= -> ->] | H]]; [now left | right; eexists; now left |].
      right. eexists. right. exact H.
    + destruct (Z.eqb_spec k u') as [-> | Hne].
      * intros [[= -> _] | H]; [now left|]. right. eexists. right. exact H.
      * intros [[= -> ->] | H]; [right; eexists; now left|].
        destruct (IH H) as [-> | [c'' H']]; [now left|]. right. eexists. right. exact H'.
Qed.

Lemma histogram_In u c a : In (u, c) (histogram a) -> In u a.
Proof.
  revert c. induction a as [|x a IH]; simpl; intros c H; [contradiction|].
  apply count_insert_In in H as [-> | [c' H]]; [now left | right; eauto].
Qed.

Lemma keys_above_lookup lo h (i : nat) u c :
  keys_above lo h -> h !! i = Some (u, c) -> lo < u.
Proof.
  intros H Hi. apply (keys_above_In lo h u c H).
  apply list_elem_of_In. eapply list_elem_of_lookup_2. exact Hi.
Qed.

Lemma keys_above_order h : forall lo (i j : nat) u c u' c',
  keys_above lo h -> h !! i = Some (u, c) -> h !! j = Some (u', c') ->
  (i < j)%nat -> u < u'.
Proof.
  induction h as [|[u0 c0] t IH]; intros lo i j u c u' c' H Hi Hj Hij; [discriminate|].
  destruct H as [Hu Ht]. destruct j as [|j]; [lia|]. simpl in Hj.
  destruct i as [|i]; simpl in Hi.
  - injection Hi as -> ->. eapply keys_above_lookup; eassumption.
  - apply (IH u0 i j u c u' c'); [assumption | assumption | assumption | lia].
Qed.

Lemma occurrences_pack q l :
  uint8_rgb q -> Forall uint8_rgb l ->
  occurrences (pack_value q) (map pack_value l) = count_color q l.
Proof.
  intros Hq Hl. unfold count_color.
  induction Hl as [|p l Hp _ IH]; simpl; [reflexivity|].
  rewrite filter_cons. destruct (decide (p = q)) as [-> | Hne].
  - rewrite Z.eqb_refl. simpl length. lia.
  - destruct (Z.eqb_spec (pack_value p) (pack_value q)) as [E | _]; [|lia].
    apply pack_value_inj in E; [contradiction | assumption | assumption].
Qed.

Lemma get_bg_color_inv image bits bg :
  get_bg_color image bits = Ok bg ->
  Forall uint8_rgb image /\
  exists (i : nat) u c,
    let h := histogram (map pack_value (map (quantize_rgb (default 6 bits)) image)) in
    argmax (map snd h) = Some i /\ h !! i = Some (u, c) /\ bg = unpack_value u.
Proof.
  intros H.
  assert (Hu : Forall uint8_rgb image).
  { apply forallb_uint8_rgb. unfold get_bg_color, quantize, image_of in H.
    destruct (forallb is_uint8_rgb image); [reflexivity | discriminate]. }
  assert (Hb : default 6 bits <= 8).
  { destruct (Z_lt_le_dec 8 (default 6 bits)) as [Hbig | Hsmall]; [|assumption].
    unfold get_bg_color in H.
    rewrite quantize_negative_shift in H by assumption. discriminate. }
  split; [assumption|].
  unfold get_bg_color in H. rewrite quantize_ok in H by (assumption || (simpl; lia)). simpl in H.
  fold (quantize_rgb (default 6 bits)) in H.
  set (h := histogram _) in *.
  destruct (argmax (map snd h)) as [i|] eqn:Hi; [|discriminate].
  rewrite lookup_map in H. destruct (h !! i) as [[u c]|] eqn:Hui; [|discriminate].
  simpl in H. injection H as <-. now exists i, u, c.
Qed.

(** X5. The colour returned by [get_bg_color] is the quantised colour of
    some pixel of the image; no bucket holds more pixels than its bucket;
    and among the buckets that hold as many, it has the least packed key. *)
Theorem get_bg_color_plurality image bits bg :
  0 <= default 6 bits <= 8 ->
  get_bg_color image bits = Ok bg ->
  let quantized := map (quantize_rgb (default 6 bits)) image in
  (exists p, In p image /\ bg = quantize_rgb (default 6 bits) p) /\
  (forall p, In p image ->
     count_color (quantize_rgb (default 6 bits) p) quantized <= count_color bg quantized) /\
  (forall p, In p image ->
     count_color (quantize_rgb (default 6 bits) p) quantized = count_color bg quantized ->
     pack_value bg <= pack_value (quantize_rgb (default 6 bits) p)).
Proof.
  intros Hb H quantized.
  destruct (get_bg_color_inv image bits bg H) as (Himg & i & u & c & Hi & Hui & ->).
  fold quantized in Hi, Hui.
  set (b := default 6 bits) in *.
  set (a := map pack_value quantized) in *.
  assert (Hq : Forall uint8_rgb quantized).
  { apply Forall_map. eapply Forall_impl; [exact Himg|].
    intros p Hp. now apply quantize_rgb_uint8'. }
  destruct (histogram_keys a) as [lo Hlo].
  assert (Hin : In (u, c) (histogram a)).
  { apply list_elem_of_In. eapply list_elem_of_lookup_2. exact Hui. }
  assert (Hc : occurrences u a = c).
  { rewrite <- histogram_get. now apply (hist_get_In lo). }
  (* the key is the key of a pixel *)
  assert (Hp : exists p, In p image /\ u = pack_value (quantize_rgb b p)).
  { apply histogram_In in Hin. subst a quantized. rewrite map_map in Hin.
    apply in_map_iff in Hin as (p & <- & Hp). now exists p. }
  destruct Hp as (p0 & Hp0 & ->).
  assert (Hq0 : uint8_rgb (quantize_rgb b p0)).
  { apply quantize_rgb_uint8'; [assumption|]. rewrite Forall_forall in Himg.
    apply Himg. now apply list_elem_of_In. }
  rewrite unpack_pack_value by assumption.
  destruct (argmax_first _ _ Hi) as (x & Hx & Hmax & Hfirst).
  rewrite lookup_map, Hui in Hx. simpl in Hx. injection Hx as <-.
  assert (Hkey : forall p, In p image ->
            exists (j : nat), histogram a !! j
                      = Some (pack_value (quantize_rgb b p),
                              count_color (quantize_rgb b p) quantized)).
  { intros p Hp.
    assert (Hqp : uint8_rgb (quantize_rgb b p)).
    { apply quantize_rgb_uint8'; [assumption|]. rewrite Forall_forall in Himg.
      apply Himg. now apply list_elem_of_In. }
    assert (Hocc : occurrences (pack_value (quantize_rgb b p)) a
                   = count_color (quantize_rgb b p) quantized)
      by (now apply occurrences_pack).
    assert (Hpos : 0 < count_color (quantize_rgb b p) quantized).
    { unfold count_color. apply (in_map (quantize_rgb b)) in Hp. fold quantized in Hp.
      apply list_elem_of_In in Hp.
      assert (Hf : quantize_rgb b p ∈ filter (fun q => q = quantize_rgb b p) quantized)
        by (apply list_elem_of_filter; auto).
      destruct (filter _ quantized); [inversion Hf | simpl; lia]. }
    rewrite <- Hocc, <- histogram_get.
    apply list_elem_of_lookup_1, list_elem_of_In, hist_get_present.
    rewrite histogram_get. lia. }
  rewrite <- (occurrences_pack _ _ Hq0 Hq). fold a. rewrite Hc.
  split; [now exists p0|]. split.
  - intros p Hp. destruct (Hkey p Hp) as [j Hj].
    rewrite Forall_forall in Hmax. apply Hmax.
    apply list_elem_of_lookup. exists j. now rewrite lookup_map, Hj.
  - intros p Hp Heq. destruct (Hkey p Hp) as [j Hj].
    destruct (Nat.lt_trichotomy j i) as [Hlt | [-> | Hgt]].
    + assert (Hjc : map snd (histogram a) !! j
                    = Some (count_color (quantize_rgb b p) quantized))
        by (now rewrite lookup_map, Hj).
      pose proof (Hfirst j _ Hlt Hjc). lia.
    + rewrite Hui in Hj. injection Hj as Hj _. lia.
    + pose proof (keys_above_order _ _ _ _ _ _ _ _ Hlo Hui Hj Hgt). lia.
Qed.

Lemma get_bg_color_plurality_witness :
  exists p, In p [(255, 255, 255); (0, 0, 0); (0, 0, 0); (254, 254, 254)] /\
            (2, 2, 2) = quantize_rgb 6 p.
Proof.
  apply (get_bg_color_plurality
           [(255, 255, 255); (0, 0, 0); (0, 0, 0); (254, 254, 254)] None (2, 2, 2)).
  - simpl. lia.
  - reflexivity.
Defined.

Lemma count_insert_comm x y h :
  count_insert x (count_insert y h) = count_insert y (count_insert x h).
Proof.
  induction h as [|[u c] t IH]; simpl.
  - destruct (Z.ltb_spec x y), (Z.ltb_spec y x), (Z.eqb_spec x y), (Z.eqb_spec y x);
      try lia; try reflexivity. subst. reflexivity.
  - destruct (Z.ltb_spec y u), (Z.ltb_spec x u), (Z.eqb_spec y u), (Z.eqb_spec x u);
      simpl;
      repeat match goal with
             | |- context [?a <? ?b] => destruct (Z.ltb_spec a b); try lia
             | |- context [?a =? ?b] => destruct (Z.eqb_spec a b); try lia
             end;
      subst; try reflexivity; try lia; try (now rewrite IH).
Qed.

Lemma histogram_perm a a' : Permutation a a' -> histogram a = histogram a'.
Proof.
  induction 1 as [|x a a' _ IH|x y a|a a' a'' _ IH1 _ IH2]; simpl.
  - reflexivity.
  - now rewrite IH.
  - apply count_insert_comm.
  - now rewrite IH1.
Qed.

(** X6. [get_bg_color] does not depend on the order of the pixels: shuffled
    samples give the same background colour, or the same error. *)
Theorem get_bg_color_permutation image image' bits :
  Permutation image image' -> get_bg_color image bits = get_bg_color image' bits.
Proof.
  intros Hperm. unfold get_bg_color, quantize, image_of.
  assert (E : forallb is_uint8_rgb image = forallb is_uint8_rgb image').
  { induction Hperm as [|x a a' _ IH|x y a|a a' a'' _ IH1 _ IH2]; simpl.
    - reflexivity.
    - now rewrite IH.
    - destruct (is_uint8_rgb x), (is_uint8_rgb y); reflexivity.
    - now rewrite IH1. }
  rewrite <- E. destruct (forallb is_uint8_rgb image); [|reflexivity].
  cbn [array_dtype array_rows astype].
  destruct (8 - default 6 bits <? 0); [reflexivity|].
  cbn [bind_result array_rows pack_rgb flat]. unfold np_unique.
  rewrite (histogram_perm _ (map pack_value
             (map (map_rgb (fun x => quantize_value x (default 6 bits))) image'))).
  - reflexivity.
  - now do 2 apply Permutation_map.
Qed.

Lemma get_bg_color_permutation_witness :
  get_bg_color [(0, 0, 0); (255, 255, 255); (255, 255, 255)] None
  = get_bg_color [(255, 255, 255); (0, 0, 0); (255, 255, 255)] None.
Proof.
  apply get_bg_color_permutation.
  apply perm_trans with [(255, 255, 255); (0, 0, 0); (255, 255, 255)];
    [apply perm_swap | reflexivity].
Defined.

(** ** rgb_to_sv *)

Lemma sf_beq_refl x : sf_beq x x = true.
Proof.
  destruct x as [s|s| |s m e]; simpl; try reflexivity; try (now destruct s).
  rewrite Pos.eqb_refl, Z.eqb_refl. now destruct s.
Qed.

Lemma sf_beq_iff x y : sf_beq x y = true <-> x = y.
Proof. split; [apply sf_beq_eq | intros ->; apply sf_beq_refl]. Qed.

Lemma rgb_to_sv_extremes c :
  rgb_to_sv c =
  sv_of_extremes (let '(r, g, b) := c in Z.min (Z.min r g) b)
                 (let '(r, g, b) := c in Z.max (Z.max r g) b).
Proof.
  destruct c as [[r g] b]. unfold sv_of_extremes, rgb_to_sv.
  replace (Z.max (Z.max (Z.max (Z.max r g) b) (Z.min (Z.min r g) b)) (Z.min (Z.min r g) b))
    with (Z.max (Z.max r g) b) by lia.
  replace (Z.min (Z.min (Z.max (Z.max r g) b) (Z.min (Z.min r g) b)) (Z.min (Z.min r g) b))
    with (Z.min (Z.min r g) b) by lia.
  reflexivity.
Qed.

Lemma eqb_true_iff_prop (b1 b2 : bool) (P Q : Prop) :
  (b1 = true <-> P) -> (b2 = true <-> Q) -> Bool.eqb b1 b2 = true -> (P <-> Q).
Proof. intros H1 H2 E. apply Bool.eqb_prop in E. subst. tauto. Qed.

(** X7. For an 8-bit pixel the saturation and the value computed by
    [rgb_to_sv] are numbers between 0 and 1 (never NaN) that depend only on
    the least and the greatest channel.  The saturation is 0 exactly for
    greys and 1 exactly when the least channel is 0 and the pixel is not
    black; the value is 0 exactly for black and 1 exactly when some channel
    is 255. *)
Theorem rgb_to_sv_range r g b :
  uint8_rgb (r, g, b) ->
  let cmin := Z.min (Z.min r g) b in
  let cmax := Z.max (Z.max r g) b in
  let '(s, v) := rgb_to_sv (r, g, b) in
  (forall r' g' b', Z.min (Z.min r' g') b' = cmin -> Z.max (Z.max r' g') b' = cmax ->
                    rgb_to_sv (r', g', b') = (s, v)) /\
  f32_geb s f32_zero = true /\ f32_geb (f32_of_Z 1) s = true /\
  f32_geb v f32_zero = true /\ f32_geb (f32_of_Z 1) v = true /\
  (s = f32_zero <-> cmin = cmax) /\
  (s = f32_of_Z 1 <-> cmin = 0 /\ 0 < cmax) /\
  (v = f32_zero <-> cmax = 0) /\
  (v = f32_of_Z 1 <-> cmax = 255).
Proof.
  intros (Hr & Hg & Hb) cmin cmax.
  assert (Hmin : uint8 cmin) by (unfold uint8 in *; subst cmin; lia).
  assert (Hmax : uint8 cmax) by (unfold uint8 in *; subst cmax; lia).
  assert (Hle : cmin <= cmax) by (subst cmin cmax; lia).
  pose proof (check_pairs_spec sv_in_range ltac:(vm_compute; reflexivity) cmin cmax Hmin Hmax)
    as Hchk.
  pose proof (rgb_to_sv_extremes (r, g, b)) as Hsv. cbv beta iota in Hsv.
  fold cmin cmax in Hsv. rewrite Hsv.
  unfold sv_in_range in Hchk.
  destruct (sv_of_extremes cmin cmax) as [s v] eqn:Esv.
  split.
  { intros r' g' b' E1 E2. rewrite (rgb_to_sv_extremes (r', g', b')). cbv beta iota.
    now rewrite E1, E2. }
  apply orb_true_iff in Hchk as [Hchk | Hchk]; [apply Z.ltb_lt in Hchk; lia|].
  rewrite !andb_true_iff in Hchk.
  destruct Hchk as [[[[[[[H1 H2] H3] H4] H5] H6] H7] H8].
  repeat (split; [assumption|]).
  split; [|split; [|split]].
  - eapply eqb_true_iff_prop; [apply sf_beq_iff | apply Z.eqb_eq | exact H5].
  - eapply eqb_true_iff_prop; [apply sf_beq_iff | | exact H6].
    rewrite andb_true_iff, Z.eqb_eq, Z.ltb_lt. reflexivity.
  - eapply eqb_true_iff_prop; [apply sf_beq_iff | apply Z.eqb_eq | exact H7].
  - eapply eqb_true_iff_prop; [apply sf_beq_iff | apply Z.eqb_eq | exact H8].
Qed.

Lemma rgb_to_sv_range_witness :
  rgb_to_sv (255, 0, 0) = rgb_to_sv (0, 255, 0) /\
  (rgb_to_sv (255, 0, 0)).1 = f32_of_Z 1.
Proof.
  pose proof (rgb_to_sv_range 255 0 0 ltac:(repeat split; unfold uint8; lia)) as H.
  cbv zeta in H. destruct (rgb_to_sv (255, 0, 0)) as [s v] eqn:E.
  destruct H as (Hdep & _ & _ & _ & _ & _ & Hs & _).
  split.
  - symmetry. apply Hdep; reflexivity.
  - simpl. apply Hs. split; [reflexivity | reflexivity].
Defined.

(** ** get_fg_mask *)

Lemma SFcompare_finite_trans s m1 e1 m2 e2 m3 e3 :
  SFleb (S754_finite s m1 e1) (S754_finite s m2 e2) = true ->
  SFleb (S754_finite s m2 e2) (S754_finite s m3 e3) = true ->
  SFleb (S754_finite s m1 e1) (S754_finite s m3 e3) = true.
Proof.
  unfold SFleb, SFcompare.
  change (Pos.compare_cont Eq m1 m2) with (Pos.compare m1 m2).
  change (Pos.compare_cont Eq m2 m3) with (Pos.compare m2 m3).
  change (Pos.compare_cont Eq m1 m3) with (Pos.compare m1 m3).
  destruct s;
    destruct (Z.compare_spec e1 e2), (Z.compare_spec e2 e3), (Z.compare_spec e1 e3);
    try lia; try discriminate; try reflexivity; subst;
    destruct (Pos.compare_spec m1 m2), (Pos.compare_spec m2 m3), (Pos.compare_spec m1 m3);
    simpl; try lia; try discriminate; try reflexivity.
Qed.

(** The order of floating-point numbers is transitive. *)
Lemma SFleb_trans a b c : SFleb a b = true -> SFleb b c = true -> SFleb a c = true.
Proof.
  destruct a as [sa|sa| |sa ma ea], b as [sb|sb| |sb mb eb], c as [sc|sc| |sc mc ec];
    try discriminate; try reflexivity;
    try (destruct sa, sb, sc; simpl; (discriminate || reflexivity)).
  destruct sa, sb, sc; try (simpl; (discriminate || reflexivity));
    apply SFcompare_finite_trans.
Qed.

(** X8. Lowering a threshold never takes a sample out of the foreground:
    whatever is foreground at thresholds [(vt, st)] is foreground at any
    [(vt', st')] with [vt' <= vt] and [st' <= st]. *)
Theorem get_fg_mask_monotone bg samples vt st vt' st' (i : nat) :
  f32_geb vt vt' = true -> f32_geb st st' = true ->
  get_fg_mask bg samples vt st !! i = Some true ->
  get_fg_mask bg samples vt' st' !! i = Some true.
Proof.
  unfold get_fg_mask, f32_geb. intros Hv Hs. rewrite !lookup_map.
  destruct (samples !! i) as [px|]; [|discriminate]. simpl.
  intros [= H]. f_equal. unfold is_foreground, f32_geb in *.
  destruct (rgb_to_sv bg) as [s_bg v_bg], (rgb_to_sv px) as [s v].
  apply orb_true_iff in H. apply orb_true_iff. destruct H as [H | H].
  - left. eapply SFleb_trans; eassumption.
  - right. eapply SFleb_trans; eassumption.
Qed.

Lemma get_fg_mask_monotone_witness :
  get_fg_mask (254, 254, 254) [(0, 0, 0)]
    (f32_div (f32_of_Z 1) (f32_of_Z 10)) (f32_div (f32_of_Z 1) (f32_of_Z 10)) !! 0%nat
  = Some true.
Proof.
  apply (get_fg_mask_monotone (254, 254, 254) [(0, 0, 0)]
           (f32_div (f32_of_Z 1) (f32_of_Z 4)) (f32_div (f32_of_Z 1) (f32_of_Z 5))); reflexivity.
Defined.

(** X18. The classification is symmetric: a colour [b] is foreground
    against the background [a] exactly when [a] is foreground against the
    background [b], at the same thresholds. *)
Theorem get_fg_mask_symmetric a b vt st :
  get_fg_mask a [b] vt st = get_fg_mask b [a] vt st.
Proof.
  unfold get_fg_mask. simpl. f_equal. rewrite is_foreground_sym.
  unfold is_foreground. destruct (rgb_to_sv a) as [sa va], (rgb_to_sv b) as [sb vb].
  reflexivity.
Qed.

(** ** sample_pixels *)

Lemma mapM_cons_Some {A B : Type} (f : A -> option B) x l y k :
  f x = Some y -> mapM f l = Some k -> mapM f (x :: l) = Some (y :: k).
Proof. intros Hx Hl. simpl. rewrite Hx. simpl. rewrite Hl. reflexivity. Qed.

Lemma mapM_cons_inv {A B : Type} (f : A -> option B) x l r :
  mapM f (x :: l) = Some r -> exists y k, f x = Some y /\ mapM f l = Some k /\ r = y :: k.
Proof.
  simpl. destruct (f x) as [y|]; [|discriminate]. simpl.
  destruct (mapM f l) as [k|]; [|discriminate]. simpl. intros [= <-]. eauto.
Qed.

Lemma mapM_permutation {A B : Type} (f : A -> option B) l l' :
  Permutation l l' ->
  forall k, mapM f l = Some k -> exists k', mapM f l' = Some k' /\ Permutation k k'.
Proof.
  induction 1 as [|x l l' _ IH|x y l|l l' l'' _ IH1 _ IH2]; intros k Hk.
  - exists k. split; [assumption | reflexivity].
  - apply mapM_cons_inv in Hk as (y & k0 & Hx & Hl & ->).
    destruct (IH k0 Hl) as (k' & Hk' & Hp).
    exists (y :: k'). split; [now apply mapM_cons_Some | now constructor].
  - apply mapM_cons_inv in Hk as (b1 & k1 & Hy & Hl & ->).
    apply mapM_cons_inv in Hl as (b2 & k2 & Hx & Hl & ->).
    exists (b2 :: b1 :: k2). split; [|apply perm_swap].
    apply mapM_cons_Some; [assumption|]. now apply mapM_cons_Some.
  - destruct (IH1 k Hk) as (k1 & Hk1 & Hp1).
    destruct (IH2 k1 Hk1) as (k2 & Hk2 & Hp2).
    exists k2. split; [assumption | now transitivity k1].
Qed.

Lemma mapM_lookup_seq {A : Type} (l pre : list A) :
  mapM (fun i => (pre ++ l) !! i) (seq (length pre) (length l)) = Some l.
Proof.
  revert pre. induction l as [|x l IH]; intros pre; [reflexivity|].
  simpl seq. apply mapM_cons_Some.
  - now apply list_lookup_middle.
  - specialize (IH (pre ++ [x])). rewrite <- app_assoc in IH. simpl in IH.
    rewrite length_app in IH. simpl in IH. now rewrite Nat.add_1_r in IH.
Qed.

Lemma mapM_take {A B : Type} (f : A -> option B) l k (n : nat) :
  mapM f l = Some k -> mapM f (take n l) = Some (take n k).
Proof.
  revert l k. induction n as [|n IH]; intros l k Hk; [reflexivity|].
  destruct l as [|x l].
  - simpl in Hk. injection Hk as <-. reflexivity.
  - apply mapM_cons_inv in Hk as (y & k0 & Hx & Hl & ->).
    simpl take. apply mapM_cons_Some; [assumption | now apply IH].
Qed.

Lemma mapM_length {A B : Type} (f : A -> option B) l k :
  mapM f l = Some k -> length k = length l.
Proof.
  revert k. induction l as [|x l IH]; intros k Hk.
  - simpl in Hk. now injection Hk as <-.
  - apply mapM_cons_inv in Hk as (y & k0 & _ & Hl & ->). simpl. f_equal. now apply IH.
Qed.

Lemma run_sample_pixels_draw {St : Type} (ext : externals St) (s : St) img frac k :
  num_samples_of (length (flat img)) frac = Ok k -> 0 <= k ->
  Permutation (ext_shuffle ext (length (flat img)) s).1 (seq 0 (length (flat img))) ->
  exists samples,
    run ext (sample_pixels img frac) s
    = (Ok samples, (ext_shuffle ext (length (flat img)) s).2) /\
    length samples = Nat.min (Z.to_nat k) (length (flat img)) /\
    samples ⊆+ flat img.
Proof.
  intros Hk Hk0 Hperm. unfold sample_pixels. rewrite Hk. simpl.
  destruct (ext_shuffle ext (length (flat img)) s) as [idx s'] eqn:Hsh. simpl in Hperm.
  unfold slice_to. destruct (Z.leb_spec 0 k) as [_ | Hneg]; [|lia].
  pose proof (mapM_lookup_seq (flat img) []) as Hseq. simpl in Hseq.
  destruct (mapM_permutation _ _ _ (Permutation_sym Hperm) _ Hseq) as (rows & Hrows & Hp).
  unfold take_rows. rewrite (mapM_take _ _ _ (Z.to_nat k) Hrows). simpl.
  exists (take (Z.to_nat k) rows). split; [reflexivity|]. split.
  - rewrite length_take. apply mapM_length in Hrows.
    rewrite Hrows. apply Permutation_length in Hperm. rewrite Hperm, length_seq. reflexivity.
  - transitivity rows; [apply submseteq_take|]. rewrite <- Hp. reflexivity.
Qed.

(** X9. When the shuffle returns a permutation of the indices and
    [int(num_pixels * sample_fraction)] is a number [k >= 0],
    [sample_pixels] returns [min(k, num_pixels)] samples, drawn from the
    pixels of the image without replacement. *)
Theorem sample_pixels_draw {St : Type} (ext : externals St) (s : St) img frac k :
  num_samples_of (length (flat img)) frac = Ok k -> 0 <= k ->
  Permutation (ext_shuffle ext (length (flat img)) s).1 (seq 0 (length (flat img))) ->
  exists samples,
    (run ext (sample_pixels img frac) s).1 = Ok samples /\
    length samples = Nat.min (Z.to_nat k) (length (flat img)) /\
    samples ⊆+ flat img.
Proof.
  intros Hk Hk0 Hperm.
  destruct (run_sample_pixels_draw ext s img frac k Hk Hk0 Hperm) as (samples & Hrun & H).
  exists samples. now rewrite Hrun.
Qed.

Lemma sample_pixels_draw_witness :
  exists samples,
    (run plain_externals
       (sample_pixels (NdArray [2; 2]%nat [(1, 2, 3); (4, 5, 6); (7, 8, 9); (1, 1, 1)])
          (SFdiv 53 1024 (f64_of_Z 1) (f64_of_Z 2))) tt).1 = Ok samples /\
    length samples = 2%nat.
Proof.
  destruct (sample_pixels_draw plain_externals tt
              (NdArray [2; 2]%nat [(1, 2, 3); (4, 5, 6); (7, 8, 9); (1, 1, 1)])
              (SFdiv 53 1024 (f64_of_Z 1) (f64_of_Z 2)) 2)
    as (samples & H1 & H2 & _).
  - reflexivity.
  - lia.
  - reflexivity.
  - exists samples. split; assumption.
Defined.

(** ** get_palette *)

Lemma f32_to_uint8_range x : uint8 (f32_to_uint8 x).
Proof.
  unfold f32_to_uint8, uint8. destruct (float_to_int x) as [z | e]; [|lia].
  pose proof (Z.mod_pos_bound z 256 ltac:(lia)). lia.
Qed.

Lemma get_bg_color_uint8 image bits bg : get_bg_color image bits = Ok bg -> uint8_rgb bg.
Proof.
  intros H. destruct (get_bg_color_inv image bits bg H) as (_ & i & u & c & _ & _ & ->).
  apply unpack_value_uint8.
Qed.

Lemma get_palette_run_inv {St : Type} (ext : externals St) (s s' : St)
    samples n vt st iter palette :
  run ext (get_palette samples n vt st iter) s = (Ok palette, s') ->
  exists bg rest,
    get_bg_color samples (Some 6) = Ok bg /\ palette = bg :: rest /\
    Forall uint8_rgb palette.
Proof.
  unfold get_palette. destruct (get_bg_color samples (Some 6)) as [bg | e] eqn:Hbg;
    simpl; [|discriminate].
  pose proof (get_bg_color_uint8 _ _ _ Hbg) as Hu.
  destruct (mask_sum (get_fg_mask bg samples vt st) =? 0).
  - destruct (n <? 0); simpl; [discriminate|].
    destruct (Z.to_nat n) as [|m]; simpl; [discriminate|].
    intros [= <- _]. exists bg, (replicate m (128, 128, 128)).
    split; [reflexivity|]. split; [reflexivity|].
    constructor; [assumption|]. apply Forall_replicate.
    repeat split; unfold uint8; lia.
  - simpl. destruct (ext_kmeans ext _ _ _ s) as [[centers | e] s1]; [|discriminate].
    simpl. intros [= <- _]. eexists bg, _. split; [reflexivity|]. split; [reflexivity|].
    constructor; [assumption|]. apply Forall_map.
    apply Forall_forall. intros [[x y] z] _. repeat split; apply f32_to_uint8_range.
Qed.

(** X10. Whatever the clustering routine does, a palette returned by
    [get_palette] starts with the background colour detected from the
    samples and consists of 8-bit triples only. *)
Theorem get_palette_entries {St : Type} (ext : externals St) (s s' : St)
    samples n vt st iter palette :
  run ext (get_palette samples n vt st iter) s = (Ok palette, s') ->
  exists bg rest,
    get_bg_color samples (Some 6) = Ok bg /\ palette = bg :: rest /\
    Forall uint8_rgb palette.
Proof. apply get_palette_run_inv. Qed.

Lemma get_palette_entries_witness :
  exists bg rest,
    get_bg_color [(255, 255, 255); (255, 255, 255); (0, 0, 0)] (Some 6) = Ok bg /\
    [(254, 254, 254); (0, 0, 0)] = bg :: rest /\
    Forall uint8_rgb [(254, 254, 254); (0, 0, 0)].
Proof.
  apply (get_palette_entries plain_externals tt tt
           [(255, 255, 255); (255, 255, 255); (0, 0, 0)] 2
           (f32_div (f32_of_Z 1) (f32_of_Z 4)) (f32_div (f32_of_Z 1) (f32_of_Z 5)) None).
  reflexivity.
Defined.

(** ** apply_palette *)

Lemma apply_palette_eval img palette vt st bg :
  palette !! 0%nat = Some bg ->
  apply_palette img palette vt st =
  Ok (NdArray (shape img)
        (map (fun px => if is_foreground (rgb_to_sv bg) vt st px
                        then astype_uint8
                               (Z.of_nat (default 0%nat (argmin (map (sq_dist px) palette))))
                        else 0) (flat img))).
Proof.
  intros Hbg. unfold apply_palette. rewrite Hbg. unfold get_fg_mask, vq.
  rewrite <- (mask_assign_select
                (fun o => Z.of_nat (default 0%nat (argmin (map (sq_dist o) palette))))).
  destruct palette; [discriminate | reflexivity].
Qed.

Lemma sq_dist_zero a b : sq_dist a b = 0 -> b = a.
Proof.
  destruct a as [[r1 g1] b1], b as [[r2 g2] b2]. unfold sq_dist. intros H.
  pose proof (Z.square_nonneg (r2 - r1)) as Hr.
  pose proof (Z.square_nonneg (g2 - g1)) as Hg.
  pose proof (Z.square_nonneg (b2 - b1)) as Hb.
  assert (Er : (r2 - r1) * (r2 - r1) = 0) by lia.
  assert (Eg : (g2 - g1) * (g2 - g1) = 0) by lia.
  assert (Eb : (b2 - b1) * (b2 - b1) = 0) by lia.
  apply Z.mul_eq_0 in Er, Eg, Eb.
  f_equal; [f_equal|]; lia.
Qed.

Lemma sq_dist_self a : sq_dist a a = 0.
Proof. destruct a as [[r g] b]. unfold sq_dist. lia. Qed.

Lemma sq_dist_nonneg a b : 0 <= sq_dist a b.
Proof.
  destruct a as [[r1 g1] b1], b as [[r2 g2] b2]. unfold sq_dist.
  pose proof (Z.square_nonneg (r2 - r1)). pose proof (Z.square_nonneg (g2 - g1)).
  pose proof (Z.square_nonneg (b2 - b1)). lia.
Qed.

(** X11. [apply_palette] raises [IndexError] on an empty palette.  With a
    palette of at most 256 entries, a pixel that is classified as foreground
    and whose colour is an entry of the palette gets a label whose palette
    entry is exactly that colour. *)
Theorem apply_palette_exact img palette vt st :
  (palette = [] -> apply_palette img palette vt st = Err "IndexError") /\
  (forall bg (i : nat) px,
     palette !! 0%nat = Some bg -> (length palette <= 256)%nat ->
     flat img !! i = Some px -> In px palette ->
     is_foreground (rgb_to_sv bg) vt st px = true ->
     exists labels l,
       apply_palette img palette vt st = Ok labels /\
       flat labels !! i = Some l /\
       palette !! Z.to_nat l = Some px).
Proof.
  split; [intros ->; reflexivity|].
  intros bg i px Hbg Hlen Hpx Hin Hfg.
  rewrite (apply_palette_eval img palette vt st bg Hbg).
  do 2 eexists. split; [reflexivity|]. simpl flat.
  rewrite lookup_map, Hpx. simpl. rewrite Hfg. split; [reflexivity|].
  destruct (argmin_sq_dist px palette) as (j & c & Hj & Hc & Hmin).
  { intros ->. discriminate. }
  rewrite Hj. simpl.
  assert (Hjlt : (j < length palette)%nat) by (eapply lookup_lt_Some; exact Hc).
  unfold astype_uint8. rewrite Z.mod_small by lia. rewrite Nat2Z.id, Hc.
  f_equal. apply sq_dist_zero.
  pose proof (Hmin px Hin) as Hle. rewrite sq_dist_self in Hle.
  pose proof (sq_dist_nonneg px c). lia.
Qed.

Lemma apply_palette_exact_witness :
  exists labels l,
    apply_palette (NdArray [1; 2]%nat [(255, 255, 255); (10, 10, 10)])
      [(254, 254, 254); (200, 0, 0); (10, 10, 10)]
      (f32_div (f32_of_Z 1) (f32_of_Z 4)) (f32_div (f32_of_Z 1) (f32_of_Z 5)) = Ok labels /\
    flat labels !! 1%nat = Some l /\
    [(254, 254, 254); (200, 0, 0); (10, 10, 10)] !! Z.to_nat l = Some (10, 10, 10).
Proof.
  apply (proj2 (apply_palette_exact (NdArray [1; 2]%nat [(255, 255, 255); (10, 10, 10)])
                  [(254, 254, 254); (200, 0, 0); (10, 10, 10)]
                  (f32_div (f32_of_Z 1) (f32_of_Z 4)) (f32_div (f32_of_Z 1) (f32_of_Z 5)))
           (254, 254, 254) 1%nat (10, 10, 10)).
  - reflexivity.
  - simpl. lia.
  - reflexivity.
  - simpl. tauto.
  - reflexivity.
Defined.

(** ** save_png: what is written, and when *)

Lemma keeps_written_ret {A : Type} (a : A) : keeps_written (M_ret a).
Proof. intros w. reflexivity. Qed.

Lemma keeps_written_raise {A : Type} e : keeps_written (@M_raise A e).
Proof. intros w. reflexivity. Qed.

Lemma keeps_written_bind {A B : Type} (m : M A) (f : A -> M B) :
  keeps_written m -> (forall a, keeps_written (f a)) -> keeps_written (M_bind m f).
Proof.
  intros Hm Hf w. unfold M_bind. specialize (Hm w).
  destruct (m w) as [[a | e] w']; simpl in *; [|assumption].
  now rewrite Hf.
Qed.

Lemma keeps_written_alloc a : keeps_written (alloc a).
Proof. intros w. reflexivity. Qed.

Lemma keeps_written_load r : keeps_written (load r).
Proof. intros w. unfold load. destruct (heap w !! r); reflexivity. Qed.

Lemma keeps_written_setitem_row r i row : keeps_written (setitem_row r i row).
Proof.
  intros w. unfold setitem_row. destruct (heap w !! r) as [[rows | rows]|];
    try reflexivity; destruct (decide (i < length rows)%nat); reflexivity.
Qed.

Create HintDb written.
#[local] Hint Resolve keeps_written_ret keeps_written_raise keeps_written_alloc
  keeps_written_load keeps_written_setitem_row : written.

Ltac written_steps :=
  repeat (apply keeps_written_bind; [|intros ?]); auto with written.

Lemma keeps_written_saturate_block r : keeps_written (saturate_block r).
Proof.
  unfold saturate_block, astype_float32, astype_uint8_array, np_min, np_max.
  written_steps.
  - destruct (entries (to_f32 _)); auto with written.
  - destruct (entries (to_f32 _)); auto with written.
  - destruct (f32_ltb _ _); [unfold map_array; written_steps | auto with written].
Qed.

Lemma keeps_written_white_bg_block r : keeps_written (white_bg_block r).
Proof. unfold white_bg_block, np_copy. written_steps. Qed.

Lemma save_png_writes file labels palette dpi saturate white_bg w :
  match save_png file labels palette dpi saturate white_bg w with
  | (Ok _, w') => exists a, written w' = written w ++ [Png file labels a dpi]
  | (Err _, w') => written w' = written w
  end.
Proof.
  unfold save_png, M_bind.
  assert (H1 : keeps_written (if saturate then saturate_block palette else M_ret palette)).
  { destruct saturate; [apply keeps_written_saturate_block | apply keeps_written_ret]. }
  specialize (H1 w).
  destruct ((if saturate then saturate_block palette else M_ret palette) w) as [[p1 | e] w1];
    simpl in H1; [|assumption].
  assert (H2 : keeps_written (if white_bg then white_bg_block p1 else M_ret p1)).
  { destruct white_bg; [apply keeps_written_white_bg_block | apply keeps_written_ret]. }
  specialize (H2 w1).
  destruct ((if white_bg then white_bg_block p1 else M_ret p1) w1) as [[p2 | e] w2];
    simpl in H2; [|congruence].
  unfold write_png, M_bind, load.
  destruct (heap w2 !! p2) as [a|]; simpl; [|congruence].
  exists a. congruence.
Qed.

(** X12. [save_png] hands exactly one image to the encoder when it returns,
    with the file, labels and resolution it was given, and none when it
    raises; what was written before stays.  On an empty palette it raises
    [ValueError] when [saturate] is set (minimum of an empty array) and
    [IndexError] when only [white_bg] is set. *)
Theorem save_png_output file labels (palette : ref) dpi saturate white_bg w :
  (forall w', save_png file labels palette dpi saturate white_bg w = (Ok tt, w') ->
     exists a, written w' = written w ++ [Png file labels a dpi]) /\
  (forall e w', save_png file labels palette dpi saturate white_bg w = (Err e, w') ->
     written w' = written w) /\
  (heap w !! palette = Some (U8 []) ->
   (saturate = true ->
    (save_png file labels palette dpi saturate white_bg w).1 = Err "ValueError") /\
   (saturate = false -> white_bg = true ->
    (save_png file labels palette dpi saturate white_bg w).1 = Err "IndexError")).
Proof.
  pose proof (save_png_writes file labels palette dpi saturate white_bg w) as H.
  split; [|split].
  - intros w' E. now rewrite E in H.
  - intros e w' E. now rewrite E in H.
  - intros Hp. destruct w as [h wr]. simpl in Hp. split.
    + intros ->. unfold save_png, saturate_block.
      rewrite !M_bind_assoc.
      rewrite (M_bind_run _ _ _ _ _ (astype_float32_run h wr palette _ Hp)).
      unfold np_min, M_bind, load. simpl. rewrite lookup_fresh. reflexivity.
    + intros -> ->. unfold save_png, white_bg_block, np_copy, M_bind, M_ret, load, alloc,
        setitem_row. simpl. rewrite Hp. simpl. rewrite lookup_fresh. reflexivity.
Qed.

Lemma save_png_output_witness :
  (save_png 0 (NdArray [0; 0]%nat []) 0%nat (150, 150) true false (World [U8 []] [])).1
  = Err "ValueError".
Proof.
  apply (proj2 (proj2 (save_png_output 0 (NdArray [0; 0]%nat []) 0%nat (150, 150) true false
                         (World [U8 []] [])))); reflexivity.
Defined.

Lemma channels_map g palette : channels (map (map_rgb g) palette) = map g (channels palette).
Proof.
  induction palette as [|[[r gr] b] palette IH]; simpl; [reflexivity|]. now rewrite IH.
Qed.

Lemma map_rgb_id_ext (g : Z -> Z) palette :
  (forall x, In x (channels palette) -> g x = x) -> map (map_rgb g) palette = palette.
Proof.
  induction palette as [|[[r gr] b] palette IH]; simpl; intros H; [reflexivity|].
  rewrite IH by (intros x Hx; apply H; tauto).
  now rewrite !H by tauto.
Qed.

(** The shape of what the saturation computes: one monotone map applied to
    every entry, with values in [0, 255], and applying the saturation again
    changes nothing. *)
Lemma spec_saturate_form palette :
  palette <> [] -> Forall uint8_rgb palette ->
  exists g : Z -> Z,
    spec_saturate palette = map (map_rgb g) palette /\
    (forall x y, x <= y -> g x <= g y) /\
    (forall x, In x (channels palette) -> 0 <= g x <= 255) /\
    spec_saturate (spec_saturate palette) = spec_saturate palette.
Proof.
  intros Hne Hpal.
  pose proof (channels_uint8 _ Hpal) as Hu.
  destruct (channels palette) as [|x0 t] eqn:Hch; [now apply channels_nonempty in Hch|].
  destruct (foldl_min_spec t x0) as [Hmin_in Hmin_le].
  destruct (foldl_max_spec t x0) as [Hmax_in Hmax_le].
  set (m := foldl Z.min x0 t) in *. set (M := foldl Z.max x0 t) in *.
  rewrite Forall_forall in Hu, Hmin_le, Hmax_le.
  assert (Hb : forall x, In x (x0 :: t) -> 0 <= x <= 255 /\ m <= x <= M).
  { intros x Hx. apply list_elem_of_In in Hx. split; [apply (Hu x Hx)|]. split; auto. }
  assert (Es : spec_saturate palette =
               if m <? M then map (map_rgb (fun x => 255 * (x - m) / (M - m))) palette
               else palette).
  { unfold spec_saturate. now rewrite Hch. }
  destruct (Z.ltb_spec m M) as [Hlt | Hge].
  - set (g := fun x => 255 * (x - m) / (M - m)) in *.
    assert (Hmono : forall x y, x <= y -> g x <= g y).
    { intros x y Hxy. unfold g. apply Z.div_le_mono; lia. }
    assert (Hg0 : g m = 0).
    { unfold g. rewrite Z.sub_diag, Z.mul_0_r. apply Z.div_0_l. lia. }
    assert (Hg255 : g M = 255) by (unfold g; apply Z.div_mul; lia).
    assert (Hrange : forall x, In x (x0 :: t) -> 0 <= g x <= 255).
    { intros x Hx. destruct (Hb x Hx) as [_ [H1 H2]].
      pose proof (Hmono m x H1). pose proof (Hmono x M H2). lia. }
    exists g. split; [assumption|]. split; [assumption|]. split; [assumption|].
    rewrite Es.
    rewrite (spec_saturate_extremes (map (map_rgb g) palette) 0 255).
    + simpl. rewrite map_map. apply map_ext_in. intros [[r gr] b] Hc. simpl.
      f_equal; [f_equal|]; rewrite Z.sub_0_r, Z.mul_comm; apply Z.div_mul; lia.
    + rewrite channels_map, Hch, <- Hg0. now apply in_map.
    + rewrite channels_map, Hch, <- Hg255. now apply in_map.
    + rewrite channels_map, Hch. apply Forall_map, Forall_forall.
      intros x Hx. apply Hrange. now apply list_elem_of_In.
  - exists (fun x => x). split.
    + rewrite Es. symmetry. apply map_rgb_id_ext. reflexivity.
    + split; [auto|]. split; [|now rewrite Es].
      intros x Hx. apply (Hb x Hx).
Qed.

(** X13. With [saturate] set, the palette that [save_png] writes for a
    non-empty 8-bit palette has as many entries, all 8-bit; entries keep
    their order of brightness (the rescaling is monotone); and saturating
    the written palette once more writes the same palette. *)
Theorem save_png_saturate_stable file labels dpi h wr (p : ref) palette :
  h !! p = Some (U8 palette) -> Forall uint8_rgb palette -> palette <> [] ->
  exists out h',
    save_png file labels p dpi true false (World h wr)
    = (Ok tt, World h' (wr ++ [Png file labels (U8 out) dpi])) /\
    length out = length palette /\
    Forall uint8_rgb out /\
    (forall (i j : nat) x y x' y',
       channels palette !! i = Some x -> channels palette !! j = Some y ->
       channels out !! i = Some x' -> channels out !! j = Some y' ->
       x <= y -> x' <= y') /\
    (forall h2 wr2 (p2 : ref),
       h2 !! p2 = Some (U8 out) ->
       exists h2',
         save_png file labels p2 dpi true false (World h2 wr2)
         = (Ok tt, World h2' (wr2 ++ [Png file labels (U8 out) dpi]))).
Proof.
  intros Hp Hpal Hne.
  destruct (save_png_run file labels dpi true false h wr p palette Hp Hpal Hne) as [h' Hrun].
  unfold spec_postprocess in Hrun.
  destruct (spec_saturate_form palette Hne Hpal) as (g & Hg & Hmono & Hrange & Hidem).
  exists (spec_saturate palette), h'. split; [exact Hrun|].
  split; [apply spec_saturate_length|].
  assert (Hout : Forall uint8_rgb (spec_saturate palette)).
  { rewrite Hg. apply Forall_map, Forall_forall. intros [[r gr] b] Hc.
    apply list_elem_of_In in Hc.
    assert (Hin : forall x, In x [r; gr; b] -> In x (channels palette)).
    { intros x Hx. unfold channels. apply in_flat_map. exists (r, gr, b). auto. }
    repeat split; apply Hrange, Hin; simpl; tauto. }
  split; [assumption|]. split.
  - intros i j x y x' y' Hi Hj Hi' Hj' Hxy.
    rewrite Hg, channels_map, lookup_map in Hi', Hj'.
    rewrite Hi in Hi'. rewrite Hj in Hj'. simpl in *.
    injection Hi' as <-. injection Hj' as <-. now apply Hmono.
  - intros h2 wr2 p2 Hp2.
    assert (Hne2 : spec_saturate palette <> []).
    { intros E. apply (f_equal length) in E. rewrite spec_saturate_length in E.
      destruct palette; [congruence | discriminate]. }
    destruct (save_png_run file labels dpi true false h2 wr2 p2 _ Hp2 Hout Hne2) as [h2' Hrun2].
    unfold spec_postprocess in Hrun2. rewrite Hidem in Hrun2. now exists h2'.
Qed.

Lemma save_png_saturate_stable_witness :
  exists out h',
    save_png 0 (NdArray [1; 1]%nat [0]) 0%nat (150, 150) true false
      (World [U8 [(10, 20, 30); (200, 100, 50)]] [])
    = (Ok tt, World h' [Png 0 (NdArray [1; 1]%nat [0]) (U8 out) (150, 150)]) /\
    length out = 2%nat.
Proof.
  destruct (save_png_saturate_stable 0 (NdArray [1; 1]%nat [0]) (150, 150)
              [U8 [(10, 20, 30); (200, 100, 50)]] [] 0%nat
              [(10, 20, 30); (200, 100, 50)] eq_refl
              ltac:(repeat constructor; unfold uint8; lia) ltac:(discriminate))
    as (out & h' & H1 & H2 & _).
  exists out, h'. split; assumption.
Defined.

(** ** process_images_with_noteshrink *)

Section Pipeline.
Context {St : Type} (ext : externals St).

Lemma run_io_bind {A B : Type} (m : io A) (f : A -> io B) w s :
  run ext (io_bind m f w) s =
  match run ext (m w) s with
  | (Ok aw, s1) => run ext (f aw.1 aw.2) s1
  | (Err e, s1) => (Err e, s1)
  end.
Proof. unfold io_bind. apply run_bind. Qed.

Lemma run_of_prog {A : Type} (p : prog A) w s :
  run ext (of_prog p w) s =
  match run ext p s with
  | (Ok a, s1) => (Ok (a, w), s1)
  | (Err e, s1) => (Err e, s1)
  end.
Proof.
  unfold of_prog. rewrite run_bind. destruct (run ext p s) as [[a | e] s1]; reflexivity.
Qed.

Lemma run_of_M {A : Type} (m : M A) w s :
  run ext (of_M m w) s =
  match m w with
  | (Ok a, w1) => (Ok (a, w1), s)
  | (Err e, _) => (Err e, s)
  end.
Proof. unfold of_M. destruct (m w) as [[a | e] w1]; reflexivity. Qed.

Lemma run_of_result {A : Type} (r : result A) w s :
  run ext (of_result r w) s =
  match r with
  | Ok a => (Ok (a, w), s)
  | Err e => (Err e, s)
  end.
Proof. unfold of_result. rewrite run_of_prog. destruct r; reflexivity. Qed.

(** Choosing the palette of a page writes nothing. *)
Lemma run_palette_choice (global : option ref) opts img w s (p : ref) w1 s1 :
  run ext
    (match global with
     | Some p => io_ret p
     | None =>
         samples <~ of_prog (sample_pixels img (sample_fraction opts)) ;;
         palette <~ of_prog (get_palette samples (num_colors opts)
                               (value_threshold opts) (sat_threshold opts) None) ;;
         of_M (alloc (U8 palette))
     end w) s = (Ok (p, w1), s1) ->
  written w1 = written w /\ extends w w1.
Proof.
  destruct global as [p0|].
  - simpl. intros [= _ <- _]. split; [reflexivity | apply extends_refl].
  - rewrite run_io_bind, run_of_prog.
    destruct (run ext (sample_pixels _ _) s) as [[samples | e] s2]; [|discriminate].
    cbn [fst snd]. rewrite run_io_bind, run_of_prog.
    destruct (run ext (get_palette _ _ _ _ _) s2) as [[palette | e] s3]; [|discriminate].
    cbn [fst snd]. rewrite run_of_M. simpl. intros [= _ <- _].
    split; [reflexivity | apply frames_alloc].
Qed.

Lemma apply_palette_shape img palette vt st labels :
  apply_palette img palette vt st = Ok labels ->
  shape labels = shape img /\ length (flat labels) = length (flat img).
Proof.
  destruct (palette !! 0%nat) as [bg|] eqn:Hbg.
  - rewrite (apply_palette_eval img palette vt st bg Hbg). intros [= <-].
    simpl. split; [reflexivity | apply length_map].
  - unfold apply_palette. rewrite Hbg. discriminate.
Qed.

Lemma process_pages_written global opts image_files :
  forall idx w s processed_files w',
    (run ext (process_pages global opts idx image_files w) s).1
    = Ok (processed_files, w') ->
    processed_files = seq idx (length image_files) /\
    exists pngs,
      written w' = written w ++ pngs /\
      map png_file pngs = seq idx (length image_files) /\
      map png_dpi pngs = map (fun f => default (150, 150) (page_dpi f)) image_files /\
      map (fun o => shape (png_labels o)) pngs
      = map (fun f => shape (page_pixels f)) image_files.
Proof.
  induction image_files as [|img_file rest IH]; intros idx w s files w' Hrun.
  - simpl in Hrun. injection Hrun as <- <-. split; [reflexivity|].
    exists []. rewrite app_nil_r. repeat split.
  - cbn [process_pages] in Hrun. rewrite run_io_bind in Hrun.
    match type of Hrun with
    | context [run ext (?m w) s] =>
        destruct (run ext (m w) s) as [[[p w1] | e] s1] eqn:Hsel; [|discriminate]
    end.
    apply run_palette_choice in Hsel as [Hw1 _]. cbn [fst snd] in Hrun.
    rewrite run_io_bind, run_of_M in Hrun.
    destruct (load p w1) as [[colors | e] w1'] eqn:Hload; [|discriminate].
    assert (w1' = w1) as ->.
    { unfold load in Hload. destruct (heap w1 !! p); now injection Hload. }
    cbn [fst snd] in Hrun. rewrite run_io_bind, run_of_result in Hrun.
    destruct (apply_palette _ _ _ _) as [labels | e] eqn:Happ; [|discriminate].
    apply apply_palette_shape in Happ as [Hshape _].
    cbn [fst snd] in Hrun. rewrite run_io_bind, run_of_M in Hrun.
    pose proof (save_png_writes idx labels p (default (150, 150) (page_dpi img_file))
                  (saturate opts) (white_bg opts) w1) as Hsave.
    destruct (save_png _ _ _ _ _ _ w1) as [[[] | e] w2]; [|discriminate].
    destruct Hsave as [a Hw2].
    cbn [fst snd] in Hrun. rewrite run_io_bind in Hrun.
    destruct (run ext (process_pages global opts (S idx) rest w2) s1)
      as [[[files1 w3] | e] s3] eqn:Hrec; [|discriminate].
    simpl in Hrun. injection Hrun as <- <-.
    destruct (IH (S idx) w2 s1 files1 w3 ltac:(now rewrite Hrec))
      as (-> & pngs & Hw3 & Hfiles & Hdpi & Hshapes).
    split; [reflexivity|].
    exists (Png idx labels a (default (150, 150) (page_dpi img_file)) :: pngs).
    split; [rewrite Hw3, Hw2, Hw1, <- app_assoc; reflexivity|].
    simpl. now rewrite Hfiles, Hdpi, Hshapes, Hshape.
Qed.
End Pipeline.

(** X14. When [process_images_with_noteshrink] returns, in either mode, it
    returns one output per page, numbered in page order from 0, and has
    handed the encoder exactly one image per page, in that order, after
    whatever was written before: each with the page's own resolution, or
    (150, 150) when the page records none, and with a label map of the
    page's shape. *)
Theorem process_images_outputs {St : Type} (ext : externals St) (s : St)
    image_files opts w processed_files w' :
  (run ext (process_images_with_noteshrink image_files opts w) s).1
  = Ok (processed_files, w') ->
  processed_files = seq 0 (length image_files) /\
  exists pngs,
    written w' = written w ++ pngs /\
    map png_file pngs = seq 0 (length image_files) /\
    map png_dpi pngs = map (fun f => default (150, 150) (page_dpi f)) image_files /\
    map (fun o => shape (png_labels o)) pngs
    = map (fun f => shape (page_pixels f)) image_files.
Proof.
  unfold process_images_with_noteshrink. rewrite run_io_bind.
  intros Hrun.
  match type of Hrun with
  | context [run ext (?m w) s] =>
      destruct (run ext (m w) s) as [[[global w1] | e] s1] eqn:Hsel; [|discriminate]
  end.
  cbn [fst snd] in Hrun.
  assert (Hw1 : written w1 = written w).
  { destruct (global_palette opts).
    - rewrite run_io_bind, run_of_prog in Hsel.
      destruct (run ext (sample_all _ _) s) as [[all | e] s2]; [|discriminate].
      cbn [fst snd] in Hsel. rewrite run_io_bind, run_of_result in Hsel.
      destruct (np_vstack all) as [samples | e]; [|discriminate].
      cbn [fst snd] in Hsel. rewrite run_io_bind, run_of_prog in Hsel.
      destruct (run ext (get_palette _ _ _ _ _) s2) as [[palette | e] s3]; [|discriminate].
      cbn [fst snd] in Hsel. rewrite run_io_bind, run_of_M in Hsel. simpl in Hsel.
      now injection Hsel as _ <- _.
    - simpl in Hsel. now injection Hsel as _ <- _. }
  rewrite <- Hw1. eapply process_pages_written. exact Hrun.
Qed.

Lemma process_images_outputs_witness :
  [0%nat] = seq 0 1 /\
  exists pngs,
    [Png 0 (NdArray [2; 2]%nat [0; 0; 0; 1]) (U8 [(255, 255, 255); (0, 0, 0)]) (150, 150)]
    = [] ++ pngs /\
    map png_file pngs = seq 0 1 /\
    map png_dpi pngs = [(150, 150)] /\
    map (fun o => shape (png_labels o)) pngs = [[2; 2]%nat].
Proof.
  refine (process_images_outputs plain_externals tt
            [Page (NdArray [2; 2]%nat [(255, 255, 255); (255, 255, 255); (255, 255, 255); (0, 0, 0)])
               None]
            (Options 2 (f32_div (f32_of_Z 1) (f32_of_Z 4)) (f32_div (f32_of_Z 1) (f32_of_Z 5))
               true true false (f64_of_Z 1))
            (World [] []) [0%nat] (World _ _) _).
  vm_compute. reflexivity.
Defined.

Lemma process_pages_one_palette {St : Type} (ext : externals St) (p : ref) opts palette
    image_files :
  Forall uint8_rgb palette -> palette <> [] ->
  forall idx w s processed_files w',
    heap w !! p = Some (U8 palette) ->
    (run ext (process_pages (Some p) opts idx image_files w) s).1
    = Ok (processed_files, w') ->
    exists pngs,
      written w' = written w ++ pngs /\
      length pngs = length image_files /\
      Forall (fun o => png_palette o
                       = U8 (spec_postprocess (saturate opts) (white_bg opts) palette)) pngs.
Proof.
  intros Hpal Hne.
  induction image_files as [|img_file rest IH]; intros idx w s files w' Hp Hrun.
  - simpl in Hrun. injection Hrun as _ <-. exists []. rewrite app_nil_r. repeat split.
    constructor.
  - cbn [process_pages] in Hrun. rewrite run_io_bind in Hrun.
    cbn [io_ret run fst snd] in Hrun.
    rewrite run_io_bind, run_of_M in Hrun. unfold load in Hrun. rewrite Hp in Hrun.
    cbn [fst snd to_u8] in Hrun. rewrite run_io_bind, run_of_result in Hrun.
    destruct (apply_palette _ _ _ _) as [labels | e]; [|discriminate].
    cbn [fst snd] in Hrun. rewrite run_io_bind, run_of_M in Hrun.
    destruct w as [h wr]. simpl in Hp.
    destruct (save_png_run idx labels (default (150, 150) (page_dpi img_file))
                (saturate opts) (white_bg opts) h wr p palette Hp Hpal Hne) as [h' Hsave].
    pose proof (frames_save_png idx labels p (default (150, 150) (page_dpi img_file))
                  (saturate opts) (white_bg opts) (World h wr)) as Hframe.
    rewrite Hsave in Hrun, Hframe. cbn [fst snd] in Hrun, Hframe.
    rewrite run_io_bind in Hrun.
    destruct (run ext (process_pages (Some p) opts (S idx) rest _) s)
      as [[[files1 w3] | e] s3] eqn:Hrec; [|discriminate].
    simpl in Hrun. injection Hrun as _ <-.
    destruct (IH (S idx) _ s files1 w3 (extends_lookup _ _ p _ Hframe Hp)
                ltac:(now rewrite Hrec)) as (pngs & Hw3 & Hlen & Hall).
    eexists (_ :: pngs). split; [rewrite Hw3; simpl; rewrite <- app_assoc; reflexivity|].
    split; [simpl; now rewrite Hlen|]. constructor; [reflexivity | assumption].
Qed.

(** X15. In global mode one palette serves every page: when
    [process_images_with_noteshrink] returns, all the images it has handed
    to the encoder carry the same palette, the post-processed form of one
    8-bit palette built once from the pooled samples. *)
Theorem process_global_one_palette {St : Type} (ext : externals St) (s : St)
    image_files opts w processed_files w' :
  global_palette opts = true ->
  (run ext (process_images_with_noteshrink image_files opts w) s).1
  = Ok (processed_files, w') ->
  exists palette pngs,
    Forall uint8_rgb palette /\ palette <> [] /\
    written w' = written w ++ pngs /\
    length pngs = length image_files /\
    Forall (fun o => png_palette o
                     = U8 (spec_postprocess (saturate opts) (white_bg opts) palette)) pngs.
Proof.
  intros Hg. unfold process_images_with_noteshrink. rewrite Hg, run_io_bind.
  rewrite run_io_bind, run_of_prog.
  destruct (run ext (sample_all _ _) s) as [[all | e] s2]; [|discriminate].
  cbn [fst snd]. rewrite run_io_bind, run_of_result.
  destruct (np_vstack all) as [samples | e]; [|discriminate].
  cbn [fst snd]. rewrite run_io_bind, run_of_prog.
  destruct (run ext (get_palette _ _ _ _ _) s2) as [[palette | e] s3] eqn:Hpal; [|discriminate].
  destruct (get_palette_run_inv _ _ _ _ _ _ _ _ _ Hpal) as (bg & rest & _ & Hcons & Hu).
  cbn [fst snd]. rewrite run_io_bind, run_of_M. cbn [alloc io_ret run fst snd].
  intros Hrun.
  destruct (process_pages_one_palette ext (length (heap w)) opts palette image_files Hu
              ltac:(rewrite Hcons; discriminate) 0%nat
              (World (heap w ++ [U8 palette]) (written w)) s3 processed_files w'
              (lookup_fresh (heap w) (U8 palette)) Hrun) as (pngs & Hw & Hlen & Hall).
  exists palette, pngs. split; [assumption|]. split; [rewrite Hcons; discriminate|].
  split; [exact Hw|]. split; assumption.
Qed.

Lemma process_global_one_palette_witness :
  exists palette pngs,
    Forall uint8_rgb palette /\ palette <> [] /\
    [Png 0 (NdArray [2; 2]%nat [0; 0; 0; 1]) (U8 [(255, 255, 255); (0, 0, 0)]) (150, 150);
     Png 1 (NdArray [1; 1]%nat [1]) (U8 [(255, 255, 255); (0, 0, 0)]) (72, 72)] = [] ++ pngs /\
    length pngs = 2%nat /\
    Forall (fun o => png_palette o = U8 (spec_postprocess true false palette)) pngs.
Proof.
  refine (process_global_one_palette plain_externals tt
            [Page (NdArray [2; 2]%nat [(255, 255, 255); (255, 255, 255); (255, 255, 255); (0, 0, 0)])
               None;
             Page (NdArray [1; 1]%nat [(0, 0, 0)]) (Some (72, 72))]
            (Options 2 (f32_div (f32_of_Z 1) (f32_of_Z 4)) (f32_div (f32_of_Z 1) (f32_of_Z 5))
               true true false (f64_of_Z 1))
            (World [] []) [0%nat; 1%nat] (World _ _) eq_refl _).
  vm_compute. reflexivity.
Defined.

(** X16. With no page at all, per-page mode returns an empty list and
    touches nothing, while global mode raises [ValueError]: there is
    nothing to stack. *)
Theorem process_no_pages opts w :
  (global_palette opts = false ->
   process_images_with_noteshrink [] opts w = Ret ([], w)) /\
  (global_palette opts = true ->
   process_images_with_noteshrink [] opts w = Raise "ValueError").
Proof.
  unfold process_images_with_noteshrink. split; intros ->; reflexivity.
Qed.

Lemma process_no_pages_witness :
  process_images_with_noteshrink []
    (Options 8 (f32_div (f32_of_Z 1) (f32_of_Z 4)) (f32_div (f32_of_Z 1) (f32_of_Z 5))
       true true false (f64_of_Z 1)) (World [] [])
  = Raise "ValueError".
Proof.
  apply (proj2 (process_no_pages
                  (Options 8 (f32_div (f32_of_Z 1) (f32_of_Z 4)) (f32_div (f32_of_Z 1) (f32_of_Z 5))
                     true true false (f64_of_Z 1)) (World [] []))).
  reflexivity.
Defined.

(** ** A page of one colour *)

Lemma count_color_all c image :
  Forall (fun p => p = c) image -> count_color c image = Z.of_nat (length image).
Proof.
  unfold count_color. induction 1 as [|p image -> _ IH]; [reflexivity|].
  rewrite filter_cons. destruct (decide (c = c)); [|congruence].
  simpl length. lia.
Qed.

Lemma mask_sum_all_false (mask : list bool) :
  Forall (fun b => b = false) mask -> mask_sum mask = 0.
Proof.
  unfold mask_sum. induction 1 as [|b mask -> _ IH]; [reflexivity|].
  cbn [foldr Z.b2z]. rewrite IH. reflexivity.
Qed.

(** X17. A page of one 8-bit colour [c] that is background against the
    midpoint of its own bucket: from any non-empty set of its samples
    [get_palette] returns, without clustering, the midpoint followed by
    [num_colors - 1] entries (128,128,128), and [apply_palette] with that
    palette labels every pixel of the page 0. *)
Theorem uniform_page c samples img n vt st :
  uint8_rgb c -> samples <> [] ->
  Forall (fun p => p = c) samples -> Forall (fun p => p = c) (flat img) ->
  1 <= n ->
  is_foreground (rgb_to_sv (quantize_rgb 6 c)) vt st c = false ->
  let palette := quantize_rgb 6 c :: replicate (Z.to_nat n - 1) (128, 128, 128) in
  get_palette samples n vt st None = Ret palette /\
  apply_palette img palette vt st
  = Ok (NdArray (shape img) (replicate (length (flat img)) 0)).
Proof.
  intros Hc Hne Hs Himg Hn Hbg palette.
  assert (Hu : Forall uint8_rgb samples).
  { eapply Forall_impl; [exact Hs|]. now intros p ->. }
  assert (Hmode : get_bg_color samples (Some 6) = Ok (quantize_rgb 6 c)).
  { apply (get_bg_color_mode samples c Hu). rewrite (count_color_all c samples Hs).
    destruct samples; [congruence | simpl length; lia]. }
  split.
  - unfold get_palette. rewrite Hmode. simpl.
    rewrite mask_sum_all_false.
    + simpl. destruct (Z.ltb_spec n 0); [lia|].
      destruct (Z.to_nat n) as [|m] eqn:Em; [lia|]. subst palette.
      simpl. now rewrite Nat.sub_0_r.
    + unfold get_fg_mask. apply Forall_map. eapply Forall_impl; [exact Hs|].
      intros p ->. exact Hbg.
  - rewrite (apply_palette_eval img palette vt st (quantize_rgb 6 c) eq_refl).
    f_equal. f_equal. induction Himg as [|p l -> _ IH]; [reflexivity|].
    simpl. rewrite Hbg. f_equal. exact IH.
Qed.

Lemma uniform_page_witness :
  get_palette [(255, 255, 255); (255, 255, 255)] 3
    (f32_div (f32_of_Z 1) (f32_of_Z 4)) (f32_div (f32_of_Z 1) (f32_of_Z 5)) None
  = Ret [(254, 254, 254); (128, 128, 128); (128, 128, 128)].
Proof.
  apply (uniform_page (255, 255, 255) [(255, 255, 255); (255, 255, 255)]
           (NdArray [1; 1]%nat [(255, 255, 255)]) 3).
  - repeat split; unfold uint8; lia.
  - discriminate.
  - repeat constructor.
  - repeat constructor.
  - lia.
  - reflexivity.
Defined.

(** ** The pooled samples of the global mode *)

(** X19. When every shuffle returns a permutation of the indices and the
    number of samples computed for every page is a number [k >= 0], the
    sampling of the global mode returns one sample set per page, each drawn
    from its page without replacement, so that the pooled samples are drawn
    without replacement from the pixels of all pages. *)
Theorem sample_all_pooled {St : Type} (ext : externals St) image_files opts :
  (forall n s, Permutation (ext_shuffle ext n s).1 (seq 0 n)) ->
  Forall (fun f => exists k,
            num_samples_of (length (flat (page_pixels f))) (sample_fraction opts) = Ok k /\
            0 <= k) image_files ->
  forall s, exists all_samples,
    (run ext (sample_all image_files opts) s).1 = Ok all_samples /\
    Forall2 (fun f samples => samples ⊆+ flat (page_pixels f)) image_files all_samples /\
    concat all_samples ⊆+ concat (map (fun f => flat (page_pixels f)) image_files).
Proof.
  intros Hshuffle Hall.
  induction Hall as [|f rest (k & Hk & Hk0) _ IH]; intros s.
  - exists []. simpl. repeat split; constructor.
  - destruct (run_sample_pixels_draw ext s (page_pixels f) (sample_fraction opts) k Hk Hk0
                (Hshuffle _ _)) as (samples & Hrun & _ & Hsub).
    destruct (IH (ext_shuffle ext (length (flat (page_pixels f))) s).2)
      as (all_samples & Hrest & Hf2 & Hconcat).
    exists (samples :: all_samples). cbn [sample_all].
    rewrite run_bind, Hrun, run_bind.
    destruct (run ext (sample_all rest opts) _) as [[all' | e] s2]; [|discriminate].
    simpl in Hrest. injection Hrest as ->. split; [reflexivity|]. split.
    + now constructor.
    + simpl. now apply submseteq_app.
Qed.

Lemma sample_all_pooled_witness :
  exists all_samples,
    (run plain_externals
       (sample_all [Page (NdArray [1; 2]%nat [(1, 2, 3); (4, 5, 6)]) None;
                    Page (NdArray [1; 1]%nat [(7, 8, 9)]) None]
          (Options 8 (f32_div (f32_of_Z 1) (f32_of_Z 4)) (f32_div (f32_of_Z 1) (f32_of_Z 5))
             true true false (SFdiv 53 1024 (f64_of_Z 1) (f64_of_Z 2)))) tt).1
    = Ok all_samples /\
    length all_samples = 2%nat.
Proof.
  destruct (sample_all_pooled plain_externals
              [Page (NdArray [1; 2]%nat [(1, 2, 3); (4, 5, 6)]) None;
               Page (NdArray [1; 1]%nat [(7, 8, 9)]) None]
              (Options 8 (f32_div (f32_of_Z 1) (f32_of_Z 4)) (f32_div (f32_of_Z 1) (f32_of_Z 5))
                 true true false (SFdiv 53 1024 (f64_of_Z 1) (f64_of_Z 2)))
              ltac:(intros n s; reflexivity)
              ltac:(repeat constructor; [exists 1 | exists 0]; split; (reflexivity || lia))
              tt) as (all_samples & Hrun & Hf2 & _).
  exists all_samples. split; [exact Hrun|].
  apply Forall2_length in Hf2. simpl in Hf2. now symmetry.
Defined.
